(** * Shortest routes in a road network (routes.py)

    A shallow embedding of [read_distances], [dfs] and [main] of
    [CIS 210 - CS I/Week 6/routes.py], and the properties of the search.

    Modelling choices.
    - Place names are [string]s; a Python [dict] is a stdpp [gmap] keyed by
      strings, the neighbour lists are [list]s (order and duplicates kept).
    - Costs are Python floats in the source.  They are modelled by exact
      rationals ([Qc]): addition is exact and there is neither [inf] nor
      [nan].  The builtin [float] (text to number) and the formatting of a
      number by [str.format] are parameters of the loader and of the driver.
    - [dfs] mutates the dict [distances] and may raise; it is a computation
      in a state-and-exception monad whose state survives an exception.
    - Python bounds the depth of the call stack: [dfs] takes the number of
      frames still available and raises [RecursionError] when none is left. *)

From Stdlib Require Import Ascii String QArith Qcanon.
From stdpp Require Import gmap strings list fin_maps.

Local Open Scope Qc_scope.

(** ** Exceptions and results *)

Inductive exn : Type :=
  | RecursionError
  | KeyError (key : string)
  | IndexError
  | ValueError (text : string).

Inductive result (A : Type) : Type :=
  | Ok (a : A)
  | Raise (e : exn).
Arguments Ok {A} a.
Arguments Raise {A} e.

(** ** Costs *)

(** [x == y] and [x < y] on costs. *)
Definition cost_eqb (x y : Qc) : bool := Qeq_bool x y.
Definition cost_ltb (x y : Qc) : bool := negb (Qle_bool y x).

(** ** The two dictionaries *)

Abbreviation hops := (list (string * Qc)).
Abbreviation roadmap := (gmap string (list (string * Qc))).
Abbreviation table := (gmap string Qc).

(** ** A computation over the mutable dict [distances] *)

Definition M (A : Type) : Type := table → result A * table.

Definition ret {A} (a : A) : M A := λ t, (Ok a, t).
Definition raise {A} (e : exn) : M A := λ t, (Raise e, t).
Definition bind {A B} (k : A → M B) (m : M A) : M B :=
  λ t, match m t with
       | (Ok a, t') => k a t'
       | (Raise e, t') => (Raise e, t')
       end.

(** stdpp's notations [x ← m; k] and [m;; k] for sequencing. *)
#[export] Instance M_ret : MRet M := @ret.
#[export] Instance M_bind : MBind M := @bind.

(** [key in distances] *)
Definition contains (key : string) : M bool :=
  λ t, (Ok (bool_decide (is_Some (t !! key))), t).

(** [distances[key]] *)
Definition getitem (key : string) : M Qc :=
  λ t, match t !! key with
       | Some v => (Ok v, t)
       | None => (Raise (KeyError key), t)
       end.

(** [distances[key] = v] *)
Definition setitem (key : string) (v : Qc) : M unit :=
  λ t, (Ok tt, <[key := v]> t).

(** [roads[key]] *)
Definition roads_getitem (roads : roadmap) (key : string) : M hops :=
  match roads !! key with
  | Some l => ret l
  | None => raise (KeyError key)
  end.

(** [for x in l: body(x)] *)
Fixpoint for_each {A} (l : list A) (body : A → M unit) : M unit :=
  match l with
  | [] => ret tt
  | x :: l' => body x;; for_each l' body
  end.

Definition when (b : bool) (m : M unit) : M unit := if b then m else ret tt.

(** ** dfs *)

Section dfs_body.
(** The recursive call, with one frame less. *)
Variable rec : string → Qc → M unit.
Variables (place : string) (dist_so_far : Qc) (roads : roadmap).

(** The loop of lines 96-98 and of lines 102-104.  [roads[place]] is read
    once, before the loop: that the second loop rebinds [place] changes
    nothing. *)
Definition visit_neighbors : M unit :=
  l ← roads_getitem roads place;
  for_each l (λ next_location,
    let '(next_place, next_dist) := next_location in
    rec next_place (dist_so_far + next_dist)).

(** Lines 92-93. *)
Definition first_visit : M unit :=
  seen ← contains place;
  when (negb seen) (setitem place dist_so_far).

(** Lines 95-98. *)
Definition same_distance : M unit :=
  known ← getitem place;
  when (cost_eqb known dist_so_far) visit_neighbors.

(** Lines 100-104. *)
Definition shorter_distance : M unit :=
  known ← getitem place;
  when (cost_ltb dist_so_far known)
    (setitem place dist_so_far;; visit_neighbors).

Definition dfs_body : M unit :=
  first_visit;; same_distance;; shorter_distance.
End dfs_body.

Fixpoint dfs (fuel : nat) (place : string) (dist_so_far : Qc)
    (roads : roadmap) : M unit :=
  match fuel with
  | O => raise RecursionError
  | S fuel' =>
      dfs_body (λ p d, dfs fuel' p d roads) place dist_so_far roads
  end.

(** ** Text: [str.strip], [str.startswith], [str.split] *)

(** The whitespace of [str.isspace] among the ASCII characters. *)
Definition isspace (c : ascii) : bool :=
  let n := nat_of_ascii c in
  ((9 <=? n)%nat && (n <=? 13)%nat) || ((28 <=? n)%nat && (n <=? 32)%nat).

Fixpoint lstrip (s : string) : string :=
  match s with
  | String c s' => if isspace c then lstrip s' else s
  | EmptyString => EmptyString
  end.

Fixpoint rstrip (s : string) : string :=
  match s with
  | String c s' =>
      match rstrip s' with
      | EmptyString => if isspace c then EmptyString else String c EmptyString
      | r => String c r
      end
  | EmptyString => EmptyString
  end.

(** [line.strip()] *)
Definition strip (s : string) : string := rstrip (lstrip s).

(** [line.startswith(c)] for a one-character prefix. *)
Definition startswith (c : ascii) (s : string) : bool :=
  match s with
  | String c' _ => Ascii.eqb c' c
  | EmptyString => false
  end.

(** [line.split(sep)] for a one-character separator: one field more than
    there are separators, empty fields kept. *)
Fixpoint split (sep : ascii) (s : string) : list string :=
  match s with
  | EmptyString => [EmptyString]
  | String c s' =>
      if Ascii.eqb c sep then EmptyString :: split sep s'
      else match split sep s' with
           | field :: fields => String c field :: fields
           | [] => [String c EmptyString]
           end
  end.

(** ** read_distances *)

#[export] Instance result_ret : MRet result := @Ok.
#[export] Instance result_bind : MBind result := λ A B k r,
  match r with
  | Ok a => k a
  | Raise e => Raise e
  end.

(** [fields[i]] *)
Definition list_getitem (fields : list string) (i : nat) : result string :=
  match fields !! i with
  | Some x => Ok x
  | None => Raise IndexError
  end.

(** [connections[key].append(hop)] *)
Definition append_hop (key : string) (hop : string * Qc)
    (connections : roadmap) : result roadmap :=
  match connections !! key with
  | Some l => Ok (<[key := l ++ [hop]]> connections)
  | None => Raise (KeyError key)
  end.

(** [if not (key in connections): connections[key] = [ ]] *)
Definition ensure_key (key : string) (connections : roadmap) : roadmap :=
  if bool_decide (is_Some (connections !! key)) then connections
  else <[key := []]> connections.

Section loader.
(** The builtin [float]: the number a text denotes, or [None] where
    Python raises [ValueError]. *)
Variable float : string → option Qc.

Definition to_float (text : string) : result Qc :=
  match float text with
  | Some c => Ok c
  | None => Raise (ValueError text)
  end.

(** The body of the loop, lines 39-53. *)
Definition read_line (connections : roadmap) (line : string)
    : result roadmap :=
  let line := strip line in
  if startswith "#" line || bool_decide (line = EmptyString) then
    Ok connections
  else
    let fields := split "," line in
    place_from ← list_getitem fields 0;
    place_to ← list_getitem fields 1;
    text ← list_getitem fields 2;
    cost ← to_float text;
    let connections := ensure_key place_from connections in
    connections ← append_hop place_from (place_to, cost) connections;
    let connections := ensure_key place_to connections in
    append_hop place_to (place_from, cost) connections.

Fixpoint read_lines (connections : roadmap) (map_file : list string)
    : result roadmap :=
  match map_file with
  | [] => Ok connections
  | line :: rest =>
      connections ← read_line connections line;
      read_lines connections rest
  end.

Definition read_distances (map_file : list string) : result roadmap :=
  read_lines ∅ map_file.
End loader.

(** ** main *)

(** How the process ends: normally, by [exit(code)], or with a traceback. *)
Inductive status : Type :=
  | Finished
  | SystemExit (code : Z)
  | Uncaught (e : exn).

(** [print(a, b, ...)]: the arguments separated by one blank. *)
Definition print_args (args : list string) : string := String.concat " " args.

Section driver.
Variable float : string → option Qc.
(** How [str.format] writes a float. *)
Variable str : Qc → string.

(** [main], from the parsed command line: what is printed and how the
    process ends.  [fuel] is the depth the call stack allows. *)
Definition main (fuel : nat) (from_place to_place : string)
    (map_file : list string) : list string * status :=
  let start_place := from_place in
  let destination := to_place in
  match read_distances float map_file with
  | Raise e => ([], Uncaught e)
  | Ok roads =>
      if negb (bool_decide (is_Some (roads !! start_place))) then
        ([print_args ["Start place "; start_place; " is not on the map"]],
         SystemExit 1)
      else if negb (bool_decide (is_Some (roads !! destination))) then
        ([print_args ["Destination "; destination; " is not on the map"]],
         SystemExit 1)
      else
        match dfs fuel start_place 0 roads ∅ with
        | (Raise e, _) => ([], Uncaught e)
        | (Ok _, distances) =>
            match distances !! destination with
            | Some d =>
                (["Distance from " +:+ start_place +:+ " to " +:+
                  destination +:+ " is " +:+ str d], Finished)
            | None =>
                (["You can't get from " +:+ start_place +:+ " to " +:+
                  destination], Finished)
            end
        end
  end.
End driver.

(** A reader of plain decimal numerals ([10], [2.5], [.5]): the part of
    [float]'s grammar the examples use. *)
Fixpoint digits (s : string) (acc : N) : option N :=
  match s with
  | EmptyString => Some acc
  | String c s' =>
      match Ascii.is_nat c with
      | Some d => digits s' (10 * acc + N.of_nat d)%N
      | None => None
      end
  end.

Definition float_decimal (text : string) : option Qc :=
  match split "." text with
  | [whole] =>
      if bool_decide (whole = EmptyString) then None
      else n ← digits whole 0; Some (Qc_of_Z (Z.of_N n))
  | [whole; frac] =>
      if bool_decide (whole = EmptyString) && bool_decide (frac = EmptyString)
      then None
      else n ← digits (whole +:+ frac) 0;
           Some (Q2Qc (Z.of_N n # Z.to_pos (10 ^ Z.of_nat (String.length frac))))
  | _ => None
  end.

(** * Specification vocabulary *)

(** [path roads s k w]: some sequence of hops of [roads] leads from [s] to
    [k], and its hops cost [w] in total. *)
Inductive path (roads : roadmap) (s : string) : string → Qc → Prop :=
  | path_here : path roads s s 0
  | path_hop k l k' c w :
      path roads s k w → roads !! k = Some l → (k', c) ∈ l →
      path roads s k' (w + c).

(** [v] is the least total cost of the paths from [s] to [k]. *)
Definition shortest (roads : roadmap) (s k : string) (v : Qc) : Prop :=
  path roads s k v ∧ ∀ w, path roads s k w → v ≤ w.

Definition nonneg_costs (roads : roadmap) : Prop :=
  map_Forall (λ _ l, Forall (λ h : string * Qc, 0 ≤ h.2) l) roads.

Definition positive_costs (roads : roadmap) : Prop :=
  map_Forall (λ _ l, Forall (λ h : string * Qc, 0 < h.2) l) roads.

(** [simple_path roads s V k w]: a path from [s] to [k] that is at no place
    twice; [V] is the set of the places it is at before [k], and [w] the
    total of its hops, added hop by hop from 0 as [dfs] adds them. *)
Inductive simple_path (roads : roadmap) (s : string)
    : gset string → string → Qc → Prop :=
  | simple_here : simple_path roads s ∅ s 0
  | simple_hop V k l k' c w :
      simple_path roads s V k w → roads !! k = Some l → (k', c) ∈ l →
      k' ∉ V → k' ≠ k →
      simple_path roads s (V ∪ {[k]}) k' (w + c).

(** Every hop lengthens the way: added to the total cost of a simple path
    from [s], the cost of a hop out of the end of that path (to whatever
    place) gives a strictly greater total.  A cost of zero fails this, and
    so does, among floats, a positive cost that rounding absorbs. *)
Definition hops_increase (roads : roadmap) (s : string) : Prop :=
  ∀ V k w l k' c, simple_path roads s V k w → roads !! k = Some l →
    (k', c) ∈ l → w < w + c.

(** Every neighbour is itself a key of the network. *)
Definition closed (roads : roadmap) : Prop :=
  map_Forall (λ _ l, Forall (λ h : string * Qc, is_Some (roads !! h.1)) l)
    roads.

(** How one entry of the distance table may differ between an earlier and a
    later moment: not at all, by appearing, or by getting strictly lower. *)
Definition entry_step (before after : option Qc) : Prop :=
  after = before ∨
  (before = None ∧ is_Some after) ∨
  (∃ v v', before = Some v ∧ after = Some v' ∧ v' < v).

(** No entry of [T] is missing from [T'] or higher there. *)
Definition lowers (T T' : table) : Prop :=
  ∀ k v, T !! k = Some v → ∃ v', T' !! k = Some v' ∧ v' ≤ v.

(** Every entry of the table is the cost of a path from [s]. *)
Definition sound (roads : roadmap) (s : string) (T : table) : Prop :=
  ∀ k v, T !! k = Some v → path roads s k v.

(** No hop out of [k] improves on the table. *)
Definition relaxed (roads : roadmap) (T : table) (k : string) : Prop :=
  ∀ v l k' c, T !! k = Some v → roads !! k = Some l → (k', c) ∈ l →
    ∃ v', T !! k' = Some v' ∧ v' ≤ v + c.

(** What a line of the map file is, in the words of the format: a comment
    or blank line, a record [FROM,TO,COST], or neither. *)
Inductive line_kind : Type :=
  | Skipped
  | Record (place_from place_to : string) (cost : Qc)
  | Malformed.

Definition classify (float : string → option Qc) (line : string)
    : line_kind :=
  let line := strip line in
  if startswith "#" line || bool_decide (line = EmptyString) then Skipped
  else match split "," line with
       | a :: b :: text :: _ =>
           match float text with
           | Some c => Record a b c
           | None => Malformed
           end
       | _ => Malformed
       end.

(** The records of a file, in the order of its lines. *)
Definition records (float : string → option Qc) (map_file : list string)
    : list (string * string * Qc) :=
  omap (λ line, match classify float line with
                | Record a b c => Some (a, b, c)
                | _ => None
                end) map_file.

(** The two directed entries of a record, as far as they belong to the
    neighbour list of [k]. *)
Definition entries_of_record (k : string) (r : string * string * Qc) : hops :=
  let '(a, b, c) := r in
  (if bool_decide (a = k) then [(b, c)] else []) ++
  (if bool_decide (b = k) then [(a, c)] else []).

(** The neighbour list of [k] the records call for: the entries of each
    record, record after record. *)
Definition entries_of (k : string) (recs : list (string * string * Qc))
    : hops :=
  flat_map (entries_of_record k) recs.

(** A location is a key exactly when it has an entry. *)
Definition as_entry (l : hops) : option hops :=
  match l with
  | [] => None
  | _ => Some l
  end.

(** The places the search is in the middle of exploring: each has an entry
    strictly below the distance [d] of the call at hand. *)
Definition blocked (S : gset string) (d : Qc) (T : table) : Prop :=
  ∀ q, q ∈ S → ∃ v, T !! q = Some v ∧ v < d.

(** What a call that returned has achieved: the place is in the table at
    no more than the distance it was reached at, and every entry the call
    changed is relaxed. *)
Definition settled (roads : roadmap) (place : string) (d : Qc)
    (T T' : table) : Prop :=
  (∃ v, T' !! place = Some v ∧ v ≤ d) ∧
  (∀ k, T' !! k ≠ T !! k → relaxed roads T' k).

(** A step of the search that keeps the table sound. *)
Definition keeps_sound (roads : roadmap) (s : string) (T T' : table) : Prop :=
  sound roads s T → sound roads s T'.

(** What the loop of a call at [place] keeps: the frames below stay
    blocked, and the entry of [place] stays no higher than [d]. *)
Definition kept (S : gset string) (place : string) (d : Qc) (T : table)
    : Prop :=
  blocked S d T ∧ ∃ v, T !! place = Some v ∧ v ≤ d.

(** The network after a record: both directed entries appended. *)
Definition link (a b : string) (c : Qc) (connections : roadmap) : roadmap :=
  let connections :=
    <[a := default [] (connections !! a) ++ [(b, c)]]> connections in
  <[b := default [] (connections !! b) ++ [(a, c)]]> connections.

(** The table holds, for each location, the entries the records read so
    far call for, and no key without entries. *)
Definition built_from (recs : list (string * string * Qc))
    (connections : roadmap) : Prop :=
  ∀ k, connections !! k = as_entry (entries_of k recs).

(** Which of the two exploring branches one call of [dfs] enters.  The
    test of line 95 is evaluated after lines 92-93, the test of line 100
    after the branch of line 95 has returned (and not at all when that
    branch raised). *)
Definition fires_same (place : string) (d : Qc) (T : table) : bool :=
  match first_visit place d T with
  | (Ok _, T1) =>
      match T1 !! place with
      | Some known => cost_eqb known d
      | None => false
      end
  | (Raise _, _) => false
  end.

Definition fires_shorter (rec : string → Qc → M unit) (place : string)
    (d : Qc) (roads : roadmap) (T : table) : bool :=
  match (first_visit place d;; same_distance rec place d roads) T with
  | (Ok _, T2) =>
      match T2 !! place with
      | Some known => cost_ltb d known
      | None => false
      end
  | (Raise _, _) => false
  end.

(** ** Example inputs *)

Definition newline : string := String "010" EmptyString.

(** The network of a map file the loader accepts. *)
Definition loaded (map_file : list string) : roadmap :=
  match read_distances float_decimal map_file with
  | Ok roads => roads
  | Raise _ => ∅
  end.

Definition triangle_file : list string := ["A,B,5"; "B,C,3"; "A,C,10"].

Definition triangle_file_eol : list string :=
  ["A,B,5" +:+ newline; "# detour" +:+ newline; newline;
   "B,C,3" +:+ newline; "A,C,10" +:+ newline].

Definition zero_file : list string := ["A,B,0"].

Definition islands_file : list string := ["A,B,1"; "C,D,2"].

Definition zero_islands_file : list string := ["A,B,0"; "C,D,2"].

(** ** show_roads *)

Definition tab : string := String "009" EmptyString.

(** The lines of the inner loop, lines 71-73: one per hop. *)
Definition show_hops (str : Qc → string) (l : hops) : list string :=
  map (λ hop : string * Qc,
         let '(to_place, dist) := hop in
         tab +:+ "->" +:+ to_place +:+ " (" +:+ str dist +:+ ")") l.

(** [show_roads], lines 69-73: what is printed, and whether the loop ends
    or raises.  [order] is the order in which the dict [roads] yields its
    keys (the order of their insertion, which a [gmap] does not record). *)
Fixpoint show_roads (str : Qc → string) (order : list string)
    (roads : roadmap) : list string * result unit :=
  match order with
  | [] => ([], Ok tt)
  | from_place :: rest =>
      match roads !! from_place with
      | None => ([from_place +:+ ":"], Raise (KeyError from_place))
      | Some l =>
          let '(printed, r) := show_roads str rest roads in
          ((from_place +:+ ":") :: show_hops str l ++ printed, r)
      end
  end.

(** ** string_reverse.py *)

Module StringReverse.

(** [the_string[-1]]: the last character, [IndexError] on the empty
    string. *)
Fixpoint last_item (the_string : string) : result string :=
  match the_string with
  | EmptyString => Raise IndexError
  | String c EmptyString => Ok (String c EmptyString)
  | String _ rest => last_item rest
  end.

(** [the_string[:-1]]: all but the last character; a slice never raises. *)
Fixpoint but_last (the_string : string) : string :=
  match the_string with
  | EmptyString => EmptyString
  | String _ EmptyString => EmptyString
  | String c rest => String c (but_last rest)
  end.

(** [string_reverse], lines 12-24; [fuel] is the depth the call stack
    allows. *)
Fixpoint string_reverse (fuel : nat) (the_string : string) : result string :=
  match fuel with
  | O => Raise RecursionError
  | S fuel' =>
      if bool_decide (the_string = EmptyString) then Ok the_string
      else
        last ← last_item the_string;
        reversed ← string_reverse fuel' (but_last the_string);
        Ok (last +:+ reversed)
  end.

End StringReverse.

(** ** Further vocabulary *)

(** The search ended well or ran out of stack: it did not meet a missing
    key. *)
Definition no_key_error (r : result unit) : Prop :=
  r = Ok tt ∨ r = Raise RecursionError.

(** A line the loader passes over: blank or a comment. *)
Definition is_skipped (line : string) : bool :=
  startswith "#" (strip line) || bool_decide (strip line = EmptyString).

(** The characters of a string in the opposite order. *)
Definition reversed (s : string) : string :=
  string_of_list_ascii (rev (list_ascii_of_string s)).

(** * Properties *)

(** ** Costs *)

Lemma cost_eqb_eq (x y : Qc) : cost_eqb x y = true ↔ x = y.
Proof.
  unfold cost_eqb. rewrite Qeq_bool_iff. split.
  - apply Qc_is_canon.
  - intros ->. reflexivity.
Qed.

Lemma cost_ltb_lt (x y : Qc) : cost_ltb x y = true ↔ x < y.
Proof.
  unfold cost_ltb. rewrite negb_true_iff, <- not_true_iff_false, Qle_bool_iff.
  split.
  - apply Qnot_le_lt.
  - intros Hlt Hle. exact (Qlt_not_le _ _ Hlt Hle).
Qed.

Lemma cost_eqb_refl (x : Qc) : cost_eqb x x = true.
Proof. by apply cost_eqb_eq. Qed.

Lemma cost_ltb_ge (x y : Qc) : y ≤ x → cost_ltb x y = false.
Proof.
  intros Hle. apply not_true_iff_false. rewrite cost_ltb_lt.
  by apply Qcle_not_lt.
Qed.

Lemma cost_cases (x y : Qc) : x = y ∨ x < y ∨ y < x.
Proof.
  destruct (Qclt_le_dec x y) as [?|Hle]; [by auto|].
  destruct (Qcle_lt_or_eq _ _ Hle); by auto.
Qed.

(** ** One frame of [dfs], without the monad *)

Lemma dfs_body_unfold rec place d roads (T : table) :
  dfs_body rec place d roads T =
  let T1 := match T !! place with Some _ => T | None => <[place := d]> T end in
  match T1 !! place with
  | None => (Raise (KeyError place), T1)
  | Some known =>
      match (if cost_eqb known d then visit_neighbors rec place d roads T1
             else (Ok tt, T1)) with
      | (Raise e, T2) => (Raise e, T2)
      | (Ok _, T2) =>
          match T2 !! place with
          | None => (Raise (KeyError place), T2)
          | Some known' =>
              if cost_ltb d known'
              then visit_neighbors rec place d roads (<[place := d]> T2)
              else (Ok tt, T2)
          end
      end
  end.
Proof.
  unfold dfs_body, first_visit, same_distance, shorter_distance.
  unfold mbind, M_bind, bind, contains, getitem, setitem, when, ret. simpl.
  destruct (T !! place) as [v|] eqn:HT; simpl.
  - rewrite HT.
    destruct (cost_eqb v d); simpl.
    + destruct (visit_neighbors rec place d roads T) as [[[]|e] T2]; [|done].
      destruct (T2 !! place) as [v'|]; [|done].
      by destruct (cost_ltb d v').
    + rewrite HT. by destruct (cost_ltb d v).
  - rewrite lookup_insert_eq. destruct (cost_eqb d d); simpl.
    + destruct (visit_neighbors rec place d roads (<[place:=d]> T))
        as [[[]|e] T2]; [|done].
      destruct (T2 !! place) as [v'|]; [|done].
      by destruct (cost_ltb d v').
    + rewrite lookup_insert_eq. by destruct (cost_ltb d d).
Qed.

Lemma visit_neighbors_unfold rec place d roads (T : table) :
  visit_neighbors rec place d roads T =
  match roads !! place with
  | Some l => for_each l (λ h, rec h.1 (d + h.2)) T
  | None => (Raise (KeyError place), T)
  end.
Proof.
  unfold visit_neighbors, roads_getitem, mbind, M_bind, bind.
  destruct (roads !! place) as [l|]; [|done]. simpl.
  revert T. induction l as [|[k c] l IH]; intros T; [done|].
  simpl. unfold mbind, M_bind, bind.
  destruct (rec k (d + c) T) as [[[]|e] T']; [|done]. apply IH.
Qed.

Lemma for_each_cons {A} (x : A) l body (T : table) :
  for_each (x :: l) body T =
  match body x T with
  | (Ok _, T') => for_each l body T'
  | (Raise e, T') => (Raise e, T')
  end.
Proof. reflexivity. Qed.

(** ** Invariants of the search, whether it completes or raises *)

Section invariant.
Variable roads : roadmap.
(** What holds of the arguments of every call. *)
Variable Pre : string → Qc → Prop.
(** How the table after relates to the table before. *)
Variable R : table → table → Prop.
Context `{!Reflexive R, !Transitive R}.

Hypothesis Pre_hop : ∀ p d l k' c,
  Pre p d → roads !! p = Some l → (k', c) ∈ l → Pre k' (d + c).
Hypothesis R_insert : ∀ p d (T : table),
  Pre p d → T !! p = None → R T (<[p := d]> T).
Hypothesis R_lower : ∀ p d (T : table) known,
  Pre p d → T !! p = Some known → d < known → R T (<[p := d]> T).

Lemma for_each_invariant (l : hops) (body : string * Qc → M unit) :
  (∀ h T, h ∈ l → R T (body h T).2) →
  ∀ T, R T (for_each l body T).2.
Proof.
  induction l as [|h l IH]; intros Hbody T; [done|].
  rewrite for_each_cons.
  pose proof (Hbody h T (list_elem_of_here _ _)) as Hh.
  destruct (body h T) as [[[]|e] T']; [|done]. simpl in Hh.
  trans T'; [done|]. apply IH. intros h' T'' Hin.
  apply Hbody. by apply list_elem_of_further.
Qed.

Lemma visit_neighbors_invariant rec place d :
  Pre place d →
  (∀ p' d' T, Pre p' d' → R T (rec p' d' T).2) →
  ∀ T, R T (visit_neighbors rec place d roads T).2.
Proof.
  intros Hpre Hrec T. rewrite visit_neighbors_unfold.
  destruct (roads !! place) as [l|] eqn:Hl; [|done].
  apply for_each_invariant. intros [k' c] T' Hin. simpl.
  apply Hrec. by eapply Pre_hop.
Qed.

Lemma dfs_body_invariant rec place d :
  Pre place d →
  (∀ p' d' T, Pre p' d' → R T (rec p' d' T).2) →
  ∀ T, R T (dfs_body rec place d roads T).2.
Proof.
  intros Hpre Hrec T. rewrite dfs_body_unfold.
  set (T1 := match T !! place with Some _ => T | None => _ end).
  assert (R T T1) as HT1.
  { subst T1. destruct (T !! place) eqn:HT; [done|]. by apply R_insert. }
  cbv zeta. destruct (T1 !! place) as [known|] eqn:Hknown; [|done].
  assert (R T1 (if cost_eqb known d
                then visit_neighbors rec place d roads T1
                else (Ok tt, T1)).2) as H2.
  { destruct (cost_eqb known d); [|done].
    by apply visit_neighbors_invariant. }
  destruct (if cost_eqb known d then _ else _) as [[[]|e] T2];
    simpl in H2; [|by trans T1].
  destruct (T2 !! place) as [known'|] eqn:Hknown'; [|by trans T1].
  destruct (cost_ltb d known') eqn:Hlt; [|by trans T1].
  apply cost_ltb_lt in Hlt.
  trans T1; [done|]. trans T2; [done|].
  trans (<[place := d]> T2); [by eapply R_lower|].
  by apply visit_neighbors_invariant.
Qed.

Lemma dfs_invariant fuel : ∀ place d T,
  Pre place d → R T (dfs fuel place d roads T).2.
Proof.
  induction fuel as [|fuel IH]; intros place d T Hpre; [done|].
  simpl. apply dfs_body_invariant; [done|]. intros p' d' T' Hpre'.
  by apply IH.
Qed.
End invariant.

#[export] Instance lowers_refl : Reflexive lowers.
Proof. intros T k v Hk. exists v. split; [done|]. apply Qcle_refl. Qed.

#[export] Instance lowers_trans : Transitive lowers.
Proof.
  intros T1 T2 T3 H12 H23 k v Hk.
  destruct (H12 k v Hk) as (v2 & Hk2 & Hle2).
  destruct (H23 k v2 Hk2) as (v3 & Hk3 & Hle3).
  exists v3. split; [done|]. by eapply Qcle_trans.
Qed.

Lemma lowers_insert (T : table) p d : T !! p = None → lowers T (<[p := d]> T).
Proof.
  intros Hp k v Hk. exists v. split; [|apply Qcle_refl].
  rewrite lookup_insert_ne; [done|]. intros ->. congruence.
Qed.

Lemma lowers_lower (T : table) p d known :
  T !! p = Some known → d < known → lowers T (<[p := d]> T).
Proof.
  intros Hp Hlt k v Hk. destruct (decide (p = k)) as [->|Hne].
  - exists d. rewrite lookup_insert_eq. split; [done|].
    apply Qclt_le_weak. congruence.
  - exists v. rewrite lookup_insert_ne by done. split; [done|apply Qcle_refl].
Qed.

Lemma for_each_lowers (l : hops) (body : string * Qc → M unit) :
  (∀ h T, lowers T (body h T).2) → ∀ T, lowers T (for_each l body T).2.
Proof. intros Hbody. apply for_each_invariant; [apply _..|]. auto. Qed.

Lemma dfs_lowers fuel place d roads T :
  lowers T (dfs fuel place d roads T).2.
Proof.
  apply (dfs_invariant roads (λ _ _, True) lowers); try done.
  - intros. by apply lowers_insert.
  - intros. by eapply lowers_lower.
Qed.

Lemma lowers_entry_step (T T' : table) k :
  lowers T T' → entry_step (T !! k) (T' !! k).
Proof.
  intros Hlow. unfold entry_step. destruct (T !! k) as [v|] eqn:Hk.
  - destruct (Hlow k v Hk) as (v' & -> & Hle).
    destruct (Qcle_lt_or_eq _ _ Hle) as [Hlt| ->]; [|by left].
    right; right. by exists v, v'.
  - destruct (T' !! k) as [v'|]; [|by left].
    right; left. split; [done|]. by exists v'.
Qed.

(** C3.  Whatever the arguments of a call of [dfs], and whether it returns
    or raises (so also for a run cut short at any depth), every entry of the
    distance table is afterwards what it was before, or has been inserted
    for a key that had none, or has been replaced by a strictly lower
    value: an entry is never removed and never raised. *)
Theorem dfs_entries_never_raised fuel place dist_so_far roads (T : table) k :
  entry_step (T !! k) ((dfs fuel place dist_so_far roads T).2 !! k).
Proof. apply lowers_entry_step, dfs_lowers. Qed.

(** ** Every entry is the cost of a path *)

Section soundness.
Variables (roads : roadmap) (s : string).

Local Instance keeps_sound_refl : Reflexive (keeps_sound roads s).
Proof. by intros T HT. Qed.

Local Instance keeps_sound_trans : Transitive (keeps_sound roads s).
Proof. intros T1 T2 T3 H12 H23 HT. by apply H23, H12. Qed.

Lemma sound_insert (T : table) p d :
  path roads s p d → sound roads s T → sound roads s (<[p := d]> T).
Proof.
  intros Hp HT k v. destruct (decide (p = k)) as [->|Hne].
  - rewrite lookup_insert_eq. by intros [= <-].
  - rewrite lookup_insert_ne by done. apply HT.
Qed.

Lemma dfs_sound fuel place d T :
  path roads s place d → sound roads s T →
  sound roads s (dfs fuel place d roads T).2.
Proof.
  intros Hpath.
  apply (dfs_invariant roads (path roads s) (keeps_sound roads s)).
  - intros p d' l k' c Hp Hl Hin. by eapply path_hop.
  - intros p d' T' Hp _ HT'. by apply sound_insert.
  - intros p d' T' known Hp _ _ HT'. by apply sound_insert.
  - done.
Qed.
End soundness.

Lemma sound_empty roads s : sound roads s ∅.
Proof. intros k v. by rewrite lookup_empty. Qed.

(** ** A completed search leaves nothing to relax *)

Lemma relaxed_later roads (T T' : table) k :
  relaxed roads T k → lowers T T' → T' !! k = T !! k → relaxed roads T' k.
Proof.
  intros Hrel Hlow Heq v l k' c Hk Hl Hin. rewrite Heq in Hk.
  destruct (Hrel v l k' c Hk Hl Hin) as (v1 & Hk1 & Hle1).
  destruct (Hlow k' v1 Hk1) as (v2 & Hk2 & Hle2).
  exists v2. split; [done|]. by eapply Qcle_trans.
Qed.

Section stability.
Variable roads : roadmap.
Variable rec : string → Qc → M unit.
Hypothesis rec_lowers : ∀ p d T, lowers T (rec p d T).2.
Hypothesis rec_settled : ∀ p d T T',
  rec p d T = (Ok tt, T') → settled roads p d T T'.

Lemma for_each_settled d (l : hops) : ∀ T T',
  for_each l (λ h, rec h.1 (d + h.2)) T = (Ok tt, T') →
  (∀ k' c, (k', c) ∈ l → ∃ v, T' !! k' = Some v ∧ v ≤ d + c) ∧
  (∀ k, T' !! k ≠ T !! k → relaxed roads T' k).
Proof.
  induction l as [|[k1 c1] l IH]; intros T T'.
  - intros [= <-]. split; [|done]. intros k' c Hin. by apply elem_of_nil in Hin.
  - rewrite for_each_cons. simpl.
    destruct (rec k1 (d + c1) T) as [[[]|e] Ta] eqn:Hcall; [|done].
    intros Hrest.
    destruct (rec_settled _ _ _ _ Hcall) as [(va & Hva & Hlea) Hchg].
    destruct (IH _ _ Hrest) as [Hnb Hchg'].
    assert (lowers Ta T') as Hlow.
    { pose proof (for_each_lowers l (λ h, rec h.1 (d + h.2))
        (λ h T0, rec_lowers _ _ T0) Ta) as Hinv.
      by rewrite Hrest in Hinv. }
    split.
    + intros k' c Hin. apply elem_of_cons in Hin as [[= -> ->]|Hin].
      * destruct (Hlow _ _ Hva) as (v' & Hv' & Hle').
        exists v'. split; [done|]. by eapply Qcle_trans.
      * by apply Hnb.
    + intros k Hk. destruct (decide (T' !! k = Ta !! k)) as [Heq|Hne].
      * apply (relaxed_later roads Ta); [|done..].
        apply Hchg. congruence.
      * by apply Hchg'.
Qed.

Lemma visit_neighbors_settled place d (T T' : table) :
  T !! place = Some d →
  visit_neighbors rec place d roads T = (Ok tt, T') →
  (∃ v, T' !! place = Some v ∧ v ≤ d) ∧
  (∀ k, T' !! k ≠ T !! k ∨ k = place → relaxed roads T' k).
Proof.
  intros Hplace. rewrite visit_neighbors_unfold.
  destruct (roads !! place) as [l|] eqn:Hl; [|done]. intros Hloop.
  destruct (for_each_settled _ _ _ _ Hloop) as [Hnb Hchg].
  assert (lowers T T') as Hlow.
  { pose proof (for_each_lowers l (λ h, rec h.1 (d + h.2))
      (λ h T0, rec_lowers _ _ T0) T) as Hinv.
    by rewrite Hloop in Hinv. }
  split; [by apply Hlow|].
  intros k Hk. destruct (decide (T' !! k = T !! k)) as [Heq|Hne];
    [|by apply Hchg].
  destruct Hk as [Hk| ->]; [done|].
  intros v l' k' c Hv Hl' Hin. rewrite Heq, Hplace in Hv.
  injection Hv as <-. rewrite Hl in Hl'. injection Hl' as <-.
  by apply Hnb.
Qed.

Lemma dfs_body_settled place d (T T' : table) :
  dfs_body rec place d roads T = (Ok tt, T') → settled roads place d T T'.
Proof.
  rewrite dfs_body_unfold. cbv zeta.
  destruct (T !! place) as [known|] eqn:HT.
  - (* the place has been reached before *)
    rewrite HT. destruct (cost_eqb known d) eqn:Heq.
    + apply cost_eqb_eq in Heq as ->.
      destruct (visit_neighbors rec place d roads T)
        as [[[]|e] T2] eqn:Hvisit; [|done].
      destruct (visit_neighbors_settled _ _ _ _ HT Hvisit)
        as [(v & Hv & Hle) Hchg].
      rewrite Hv, (cost_ltb_ge _ _ Hle). intros [= <-].
      split; [by exists v|]. intros k Hk. apply Hchg. by left.
    + rewrite HT. destruct (cost_ltb d known) eqn:Hlt.
      * intros Hvisit.
        apply visit_neighbors_settled in Hvisit as [Hplace Hchg];
          [|by rewrite lookup_insert_eq].
        split; [done|]. intros k Hk. apply Hchg.
        destruct (decide (k = place)) as [->|Hne]; [by right|left].
        by rewrite lookup_insert_ne.
      * intros [= <-]. split; [|done]. exists known. split; [done|].
        destruct (cost_cases known d) as [->|[Hlt'|Hlt']].
        -- by rewrite cost_eqb_refl in Heq.
        -- by apply Qclt_le_weak.
        -- apply cost_ltb_lt in Hlt'. congruence.
  - (* first visit *)
    rewrite lookup_insert_eq, cost_eqb_refl.
    destruct (visit_neighbors rec place d roads (<[place:=d]> T))
      as [[[]|e] T2] eqn:Hvisit; [|done].
    apply visit_neighbors_settled in Hvisit as [(v & Hv & Hle) Hchg];
      [|by rewrite lookup_insert_eq].
    rewrite Hv, (cost_ltb_ge _ _ Hle). intros [= <-].
    split; [by exists v|]. intros k Hk. apply Hchg.
    destruct (decide (k = place)) as [->|Hne]; [by right|left].
    by rewrite lookup_insert_ne.
Qed.
End stability.

Lemma dfs_settled roads fuel : ∀ place d T T',
  dfs fuel place d roads T = (Ok tt, T') → settled roads place d T T'.
Proof.
  induction fuel as [|fuel IH]; intros place d T T'; [done|].
  simpl. apply dfs_body_settled; [|done].
  intros p d' T0. apply dfs_lowers.
Qed.

(** From the empty table every entry is new, so all of them are relaxed;
    then the table is below the cost of every path. *)
Lemma settled_below_paths roads s (T : table) :
  settled roads s 0 ∅ T →
  ∀ k w, path roads s k w → ∃ v, T !! k = Some v ∧ v ≤ w.
Proof.
  intros [Hs Hrel] k w Hpath. induction Hpath as [|k l k' c w _ IH Hl Hin].
  - done.
  - destruct IH as (v & Hv & Hle).
    assert (relaxed roads T k) as Hk.
    { apply Hrel. rewrite lookup_empty. congruence. }
    destruct (Hk v l k' c Hv Hl Hin) as (v' & Hv' & Hle').
    exists v'. split; [done|]. eapply Qcle_trans; [done|].
    by apply Qcplus_le_mono_r.
Qed.

Lemma dfs_shortest_any_costs fuel roads s (T : table) k v :
  dfs fuel s 0 roads ∅ = (Ok tt, T) → T !! k = Some v → shortest roads s k v.
Proof.
  intros Hrun Hk. split.
  - pose proof (dfs_sound roads s fuel s 0 ∅ (path_here _ _)
      (sound_empty _ _)) as Hsound.
    rewrite Hrun in Hsound. by apply Hsound.
  - intros w Hpath. apply dfs_settled in Hrun.
    destruct (settled_below_paths _ _ _ Hrun k w Hpath) as (v' & Hv' & Hle).
    congruence.
Qed.

(** ** The loader *)

Section loader_properties.
Variable float : string → option Qc.

Lemma read_lines_app pre post connections :
  read_lines float connections (pre ++ post) =
  match read_lines float connections pre with
  | Ok connections' => read_lines float connections' post
  | Raise e => Raise e
  end.
Proof.
  revert connections. induction pre as [|line pre IH]; intros connections.
  - done.
  - simpl. unfold mbind, result_bind.
    destruct (read_line float connections line); [apply IH|done].
Qed.

Lemma ensure_append key hop (connections : roadmap) :
  append_hop key hop (ensure_key key connections) =
  Ok (<[key := default [] (connections !! key) ++ [hop]]> connections).
Proof.
  unfold ensure_key, append_hop.
  destruct (connections !! key) as [l|] eqn:Hkey; simpl.
  - by rewrite Hkey.
  - by rewrite lookup_insert_eq, insert_insert_eq.
Qed.

Lemma read_line_classify connections line :
  read_line float connections line =
  match classify float line with
  | Skipped => Ok connections
  | Record a b c => Ok (link a b c connections)
  | Malformed =>
      Raise (match split "," (strip line) with
             | _ :: _ :: text :: _ => ValueError text
             | _ => IndexError
             end)
  end.
Proof.
  unfold read_line, classify. cbv zeta.
  destruct (startswith "#" (strip line) || _); [done|].
  destruct (split "," (strip line)) as [|a [|b [|text rest]]]; try done.
  unfold list_getitem, to_float. simpl. unfold mbind, result_bind.
  destruct (float text) as [c|]; [|done].
  rewrite ensure_append. by rewrite ensure_append.
Qed.

Lemma lookup_link a b c (connections : roadmap) k :
  default [] (link a b c connections !! k) =
  default [] (connections !! k) ++ entries_of_record k (a, b, c).
Proof.
  unfold link, entries_of_record.
  destruct (decide (b = k)) as [->|Hb].
  - rewrite lookup_insert_eq, (bool_decide_true (k = k)) by done. simpl.
    destruct (decide (a = k)) as [->|Ha].
    + rewrite lookup_insert_eq, (bool_decide_true (k = k)) by done.
      simpl. by rewrite <- (assoc_L (++)).
    + rewrite lookup_insert_ne, (bool_decide_false (a = k)) by done. done.
  - rewrite lookup_insert_ne, (bool_decide_false (b = k)) by done.
    destruct (decide (a = k)) as [->|Ha].
    + rewrite lookup_insert_eq, (bool_decide_true (k = k)) by done. done.
    + rewrite lookup_insert_ne, (bool_decide_false (a = k)) by done.
      by rewrite !app_nil_r.
Qed.

Lemma link_keys a b c (connections : roadmap) k :
  is_Some (link a b c connections !! k) ↔
  is_Some (connections !! k) ∨ a = k ∨ b = k.
Proof.
  unfold link. rewrite !lookup_insert_is_Some.
  destruct (decide (a = k)), (decide (b = k)); tauto.
Qed.

Lemma as_entry_default (l : hops) : default [] (as_entry l) = l.
Proof. by destruct l. Qed.

Lemma built_from_link recs a b c connections :
  built_from recs connections →
  built_from (recs ++ [(a, b, c)]) (link a b c connections).
Proof.
  intros Hbuilt k. pose proof (lookup_link a b c connections k) as Hl.
  rewrite Hbuilt, as_entry_default in Hl.
  unfold entries_of. rewrite flat_map_app. simpl. rewrite app_nil_r.
  fold (entries_of k recs).
  destruct (link a b c connections !! k) as [l|] eqn:Hk; simpl in Hl.
  - rewrite <- Hl.
    assert (is_Some (link a b c connections !! k)) as Hsome by eauto.
    apply link_keys in Hsome. rewrite Hbuilt in Hsome.
    destruct l as [|h l]; [|done]. exfalso.
    symmetry in Hl. apply app_eq_nil in Hl as [Hrecs Hrec].
    rewrite Hrecs in Hsome. unfold entries_of_record in Hrec.
    destruct Hsome as [[? [=]]|[->| ->]].
    + rewrite bool_decide_true in Hrec by done. done.
    + rewrite (bool_decide_true (k = k)) in Hrec by done.
      by destruct (bool_decide (a = k)).
  - assert (¬ is_Some (link a b c connections !! k)) as Hnone.
    { rewrite Hk. by intros [? [=]]. }
    rewrite link_keys in Hnone.
    unfold entries_of_record.
    rewrite !bool_decide_false by naive_solver.
    rewrite app_nil_r. rewrite <- Hbuilt.
    destruct (connections !! k) eqn:Hc; [|done].
    exfalso. apply Hnone. left. eauto.
Qed.

Lemma records_cons line map_file :
  records float (line :: map_file) =
  match classify float line with
  | Record a b c => (a, b, c) :: records float map_file
  | _ => records float map_file
  end.
Proof. unfold records. simpl. by destruct (classify float line). Qed.

Lemma read_lines_built map_file : ∀ recs connections roads,
  built_from recs connections →
  read_lines float connections map_file = Ok roads →
  built_from (recs ++ records float map_file) roads.
Proof.
  induction map_file as [|line map_file IH]; intros recs connections roads.
  - intros Hbuilt [= <-]. unfold records. simpl. by rewrite app_nil_r.
  - intros Hbuilt. rewrite records_cons. simpl. rewrite read_line_classify.
    unfold mbind, result_bind.
    destruct (classify float line) as [|a b c|]; [by apply IH| |done].
    intros Hrest. rewrite (cons_middle (a, b, c)), (assoc_L (++)).
    eapply IH; [|done]. by apply built_from_link.
Qed.

Lemma read_distances_built map_file roads :
  read_distances float map_file = Ok roads →
  built_from (records float map_file) roads.
Proof.
  intros Hread. apply (read_lines_built map_file [] ∅); [|done].
  intros k. by rewrite lookup_empty.
Qed.

Lemma elem_of_entries_of k h recs :
  h ∈ entries_of k recs ↔ ∃ r, r ∈ recs ∧ h ∈ entries_of_record k r.
Proof.
  unfold entries_of. rewrite list_elem_of_In, in_flat_map.
  setoid_rewrite list_elem_of_In. done.
Qed.
End loader_properties.

Lemma as_entry_elem (l : hops) h : h ∈ l → as_entry l = Some l.
Proof. destruct l; [by intros ?%elem_of_nil|done]. Qed.

Lemma as_entry_Some (l l' : hops) : as_entry l = Some l' → l' = l.
Proof. destruct l; [done|]. by intros [= <-]. Qed.

Lemma elem_of_entries_of_record k h a b c :
  h ∈ entries_of_record k (a, b, c) ↔
  (a = k ∧ h = (b, c)) ∨ (b = k ∧ h = (a, c)).
Proof.
  unfold entries_of_record. rewrite elem_of_app.
  destruct (decide (a = k)) as [Ha|Ha], (decide (b = k)) as [Hb|Hb];
    rewrite ?(bool_decide_true _ Ha), ?(bool_decide_false _ Ha),
      ?(bool_decide_true _ Hb), ?(bool_decide_false _ Hb),
      ?elem_of_nil, ?list_elem_of_singleton; tauto.
Qed.

Lemma record_entries float map_file roads a b c :
  read_distances float map_file = Ok roads →
  (a, b, c) ∈ records float map_file →
  ∃ la lb, roads !! a = Some la ∧ (b, c) ∈ la ∧
           roads !! b = Some lb ∧ (a, c) ∈ lb.
Proof.
  intros Hbuilt%read_distances_built Hrec.
  assert ((b, c) ∈ entries_of a (records float map_file)) as Ha.
  { apply elem_of_entries_of. exists (a, b, c). split; [done|].
    apply elem_of_entries_of_record. by left. }
  assert ((a, c) ∈ entries_of b (records float map_file)) as Hb.
  { apply elem_of_entries_of. exists (a, b, c). split; [done|].
    apply elem_of_entries_of_record. by right. }
  eexists _, _. rewrite !Hbuilt.
  rewrite (as_entry_elem _ _ Ha), (as_entry_elem _ _ Hb). done.
Qed.

(** C5.  When the loader returns a network, every record [A,B,C] of the
    file has put [(B, C)] in the neighbour list of [A] and [(A, C)] in that
    of [B]; and the neighbour list of each location is exactly the entries
    its records call for, two per record, in the order of the records,
    repeated where a record is repeated; a location without entries is not
    a key. *)
Theorem read_distances_two_entries_per_record float map_file roads :
  read_distances float map_file = Ok roads →
  (∀ a b c, (a, b, c) ∈ records float map_file →
     ∃ la lb, roads !! a = Some la ∧ (b, c) ∈ la ∧
              roads !! b = Some lb ∧ (a, c) ∈ lb) ∧
  (∀ k, roads !! k = as_entry (entries_of k (records float map_file))).
Proof.
  intros Hread. split.
  - intros a b c. by apply record_entries.
  - by apply read_distances_built.
Qed.

Lemma read_distances_closed float map_file roads :
  read_distances float map_file = Ok roads → closed roads.
Proof.
  intros Hread k l Hl. apply Forall_forall. intros [k' c] Hin. simpl.
  pose proof (read_distances_built _ _ _ Hread) as Hbuilt.
  rewrite Hbuilt in Hl. apply as_entry_Some in Hl as ->.
  apply elem_of_entries_of in Hin as ([[a b] c'] & Hrec & Hin).
  destruct (record_entries _ _ _ _ _ _ Hread Hrec) as (la & lb & Ha & _ & Hb & _).
  apply elem_of_entries_of_record in Hin as [[_ [= -> _]]|[_ [= -> _]]]; eauto.
Qed.

Lemma closed_hop roads k l k' c :
  closed roads → roads !! k = Some l → (k', c) ∈ l → is_Some (roads !! k').
Proof.
  intros Hclosed Hl Hin. specialize (Hclosed k l Hl).
  rewrite Forall_forall in Hclosed. by apply (Hclosed (k', c)).
Qed.

Lemma positive_hop roads k l k' c :
  positive_costs roads → roads !! k = Some l → (k', c) ∈ l → 0 < c.
Proof.
  intros Hpos Hl Hin. specialize (Hpos k l Hl).
  rewrite Forall_forall in Hpos. by apply (Hpos (k', c)).
Qed.

Lemma nonneg_hop roads k l k' c :
  nonneg_costs roads → roads !! k = Some l → (k', c) ∈ l → 0 ≤ c.
Proof.
  intros Hpos Hl Hin. specialize (Hpos k l Hl).
  rewrite Forall_forall in Hpos. by apply (Hpos (k', c)).
Qed.

(** C10.  A line that is neither blank nor a comment and has fewer than
    three fields makes the loader raise, so no network is returned; and when
    the lines before it load, what is raised is [IndexError], not the
    [ValueError] of a cost that is not a number. *)
Theorem read_distances_short_line float pre line post :
  strip line ≠ EmptyString →
  startswith "#" (strip line) = false →
  (length (split "," (strip line)) < 3)%nat →
  (∃ e, read_distances float (pre ++ line :: post) = Raise e) ∧
  (∀ connections, read_lines float ∅ pre = Ok connections →
     read_distances float (pre ++ line :: post) = Raise IndexError).
Proof.
  intros Hblank Hcomment Hfields.
  assert (∀ connections,
    read_lines float connections (line :: post) = Raise IndexError) as Hline.
  { intros connections. simpl. rewrite read_line_classify. unfold classify.
    cbv zeta. rewrite Hcomment, bool_decide_false by done. simpl.
    destruct (split "," (strip line)) as [|a [|b [|text rest]]]; try done.
    simpl in Hfields. lia. }
  unfold read_distances. rewrite read_lines_app.
  destruct (read_lines float ∅ pre) as [connections|e].
  - rewrite Hline. split; [by eexists|done].
  - split; [by eexists|done].
Qed.

(** ** Termination when every hop lengthens the way *)

Lemma blocked_lowers S d (T T' : table) :
  blocked S d T → lowers T T' → blocked S d T'.
Proof.
  intros Hb Hlow q Hq. destruct (Hb q Hq) as (v & Hv & Hlt).
  destruct (Hlow q v Hv) as (v' & Hv' & Hle).
  exists v'. split; [done|]. by eapply Qcle_lt_trans.
Qed.

Lemma blocked_extend S d d' place (T : table) v :
  blocked S d T → T !! place = Some v → v ≤ d → d < d' →
  blocked (S ∪ {[place]}) d' T.
Proof.
  intros Hb Hv Hle Hlt q [Hq| ->%elem_of_singleton]%elem_of_union.
  - destruct (Hb q Hq) as (w & Hw & Hlt'). exists w. split; [done|].
    by eapply Qclt_trans.
  - exists v. split; [done|]. by eapply Qcle_lt_trans.
Qed.

Lemma lt_plus_pos (d c : Qc) : 0 < c → d < d + c.
Proof.
  intros Hc. rewrite <- (Qcplus_0_r d) at 1. by apply Qcplus_lt_mono_l.
Qed.

(** With exact costs, strictly positive costs are enough for that. *)
Lemma positive_hops_increase roads s :
  positive_costs roads → hops_increase roads s.
Proof.
  intros Hpos V k w l k' c _ Hl Hin. apply lt_plus_pos.
  by eapply positive_hop.
Qed.

Section termination.
Variables (roads : roadmap) (s : string).
Hypothesis roads_closed : closed roads.
Hypothesis roads_increase : hops_increase roads s.

Section one_frame.
Variable rec : string → Qc → M unit.
Variables (S : gset string) (place : string) (d : Qc).
Hypothesis place_path : simple_path roads s S place d.
Hypothesis rec_lowers : ∀ p d' T, lowers T (rec p d' T).2.
Hypothesis rec_returns : ∀ p d' T,
  is_Some (roads !! p) →
  (p ∉ S ∪ {[place]} → simple_path roads s (S ∪ {[place]}) p d') →
  blocked (S ∪ {[place]}) d' T →
  ∃ T', rec p d' T = (Ok tt, T').

Lemma for_each_returns (l : hops) :
  Forall (λ h, is_Some (roads !! h.1) ∧ d < d + h.2 ∧
               (h.1 ∉ S ∪ {[place]} →
                simple_path roads s (S ∪ {[place]}) h.1 (d + h.2))) l →
  ∀ T, kept S place d T →
  ∃ T', for_each l (λ h, rec h.1 (d + h.2)) T = (Ok tt, T') ∧ kept S place d T'.
Proof.
  induction 1 as [|[k c] l (Hk & Hc & Hpath) _ IH];
    intros T [Hb (v & Hv & Hle)].
  - exists T. by repeat split; [|exists v].
  - rewrite for_each_cons. simpl in *.
    destruct (rec_returns k (d + c) T Hk Hpath) as [Ta HTa].
    { by eapply blocked_extend. }
    pose proof (rec_lowers k (d + c) T) as Hlow. rewrite HTa in *.
    simpl in Hlow. apply IH. split; [by eapply blocked_lowers|].
    destruct (Hlow place v Hv) as (v' & Hv' & Hle').
    exists v'. split; [done|]. by eapply Qcle_trans.
Qed.

Lemma visit_neighbors_returns (T : table) v :
  is_Some (roads !! place) →
  blocked S d T → T !! place = Some v → v ≤ d →
  ∃ T', visit_neighbors rec place d roads T = (Ok tt, T') ∧
        ∃ v', T' !! place = Some v' ∧ v' ≤ d.
Proof.
  intros [l Hl] Hb Hv Hle. rewrite visit_neighbors_unfold, Hl.
  destruct (for_each_returns l) with (T := T) as (T' & HT' & _ & Hplace).
  - apply Forall_forall. intros [k c] Hin. simpl. split; [|split].
    + by eapply closed_hop.
    + by eapply roads_increase.
    + intros Hnew. apply not_elem_of_union in Hnew as [HS Hne].
      eapply simple_hop; [done..|]. by apply not_elem_of_singleton in Hne.
  - split; [done|]. by exists v.
  - by exists T'.
Qed.

Lemma dfs_body_returns (T : table) :
  is_Some (roads !! place) → blocked S d T → place ∉ S →
  ∃ T', dfs_body rec place d roads T = (Ok tt, T').
Proof.
  intros Hplace Hb Hnotin. rewrite dfs_body_unfold. cbv zeta.
  destruct (T !! place) as [known|] eqn:HT.
  - rewrite HT. destruct (cost_eqb known d) eqn:Heq.
    + apply cost_eqb_eq in Heq as ->.
      destruct (visit_neighbors_returns T d) as (T2 & -> & v' & -> & Hle);
        [done..|apply Qcle_refl|].
      rewrite (cost_ltb_ge _ _ Hle). by exists T2.
    + rewrite HT. destruct (cost_ltb d known) eqn:Hlt; [|by exists T].
      destruct (visit_neighbors_returns (<[place:=d]> T) d)
        as (T2 & -> & _); [done| |by rewrite lookup_insert_eq
                                  |apply Qcle_refl|by exists T2].
      intros q Hq. rewrite lookup_insert_ne; [by apply Hb|].
      by intros ->.
  - rewrite lookup_insert_eq, cost_eqb_refl.
    destruct (visit_neighbors_returns (<[place:=d]> T) d)
      as (T2 & -> & v' & -> & Hle);
      [done| |by rewrite lookup_insert_eq|apply Qcle_refl|].
    + intros q Hq. rewrite lookup_insert_ne; [by apply Hb|].
      by intros ->.
    + rewrite (cost_ltb_ge _ _ Hle). by exists T2.
Qed.
End one_frame.

(** A call at a place the search is in the middle of returns at once. *)
Lemma dfs_body_blocked rec S place d (T : table) :
  blocked S d T → place ∈ S →
  dfs_body rec place d roads T = (Ok tt, T).
Proof.
  intros Hb Hin. destruct (Hb place Hin) as (v & Hv & Hlt).
  rewrite dfs_body_unfold. cbv zeta. rewrite !Hv.
  destruct (cost_eqb v d) eqn:Heq.
  - apply cost_eqb_eq in Heq as ->. by destruct (Qclt_not_eq _ _ Hlt).
  - rewrite Hv. by rewrite cost_ltb_ge by by apply Qclt_le_weak.
Qed.

(** The frames in use are at distinct places, so there are never more of
    them than places. *)
Lemma dfs_returns n : ∀ fuel S place d T,
  (size (dom roads ∖ S) ≤ n)%nat → (n < fuel)%nat →
  is_Some (roads !! place) →
  (place ∉ S → simple_path roads s S place d) → blocked S d T →
  ∃ T', dfs fuel place d roads T = (Ok tt, T').
Proof.
  induction n as [|n IH];
    intros fuel S place d T Hsize Hfuel Hplace Hpath Hb;
    (destruct fuel as [|fuel]; [lia|]); simpl;
    (destruct (decide (place ∈ S)) as [Hin|Hnotin];
     [exists T; by eapply dfs_body_blocked|]).
  - exfalso. apply elem_of_dom in Hplace.
    assert (place ∈ dom roads ∖ S) as Hel by by apply elem_of_difference.
    apply size_empty_inv in Hel; [done|]. apply (anti_symm le); lia.
  - apply dfs_body_returns with (S := S); try done; [by apply Hpath| |].
    + intros p d' T0. apply dfs_lowers.
    + intros p d' T0 Hp Hpath' Hb'.
      apply (IH fuel (S ∪ {[place]})); try done; [|lia].
      apply elem_of_dom in Hplace.
      assert (dom roads ∖ (S ∪ {[place]}) ⊂ dom roads ∖ S) as Hsub.
      { split.
        - intros x. rewrite !elem_of_difference, elem_of_union. tauto.
        - intros Hsup. specialize (Hsup place).
          rewrite !elem_of_difference, elem_of_union, elem_of_singleton
            in Hsup.
          tauto. }
      apply subset_size in Hsub. lia.
Qed.
End termination.

(** ** The search from the empty table *)

Lemma path_nonneg roads s k w :
  nonneg_costs roads → path roads s k w → 0 ≤ w.
Proof.
  intros Hnonneg. induction 1 as [|k l k' c w _ IH Hl Hin].
  - apply Qcle_refl.
  - apply Qcplus_nonneg_nonneg; [done|]. by eapply nonneg_hop.
Qed.

Lemma dfs_start_entry fuel roads s (T : table) :
  nonneg_costs roads →
  dfs fuel s 0 roads ∅ = (Ok tt, T) → T !! s = Some 0.
Proof.
  intros Hnonneg Hrun.
  destruct (dfs_settled _ _ _ _ _ _ Hrun) as [(v & Hv & Hle) _].
  pose proof (dfs_shortest_any_costs _ _ _ _ _ _ Hrun Hv) as [Hpath _].
  apply (path_nonneg _ _ _ _ Hnonneg) in Hpath.
  rewrite Hv. f_equal. by apply Qcle_antisym.
Qed.

(** C1.  For a network the loader built, with no negative cost: when the
    search from [start] at distance 0 into the empty table returns, every
    key of the table holds the least total cost of the paths from [start]
    to it. *)
Theorem dfs_table_holds_shortest float map_file roads fuel start
    (T : table) k v :
  read_distances float map_file = Ok roads →
  nonneg_costs roads →
  dfs fuel start 0 roads ∅ = (Ok tt, T) →
  T !! k = Some v →
  shortest roads start k v.
Proof. intros _ _. apply dfs_shortest_any_costs. Qed.

(** C6.  For a network the loader built, with no negative cost: when the
    search from [start] at distance 0 into the empty table returns, the
    entry of [start] is 0. *)
Theorem dfs_start_is_zero float map_file roads fuel start (T : table) :
  read_distances float map_file = Ok roads →
  nonneg_costs roads →
  dfs fuel start 0 roads ∅ = (Ok tt, T) →
  T !! start = Some 0.
Proof. intros _. apply dfs_start_entry. Qed.


(** ** A deeper stack changes nothing for a search that returns *)

Section deeper.
Variables rec rec' : string → Qc → M unit.
Hypothesis rec_rec' : ∀ p d T T',
  rec p d T = (Ok tt, T') → rec' p d T = (Ok tt, T').

Lemma for_each_deeper d (l : hops) : ∀ T T',
  for_each l (λ h, rec h.1 (d + h.2)) T = (Ok tt, T') →
  for_each l (λ h, rec' h.1 (d + h.2)) T = (Ok tt, T').
Proof.
  induction l as [|[k c] l IH]; intros T T'; [done|].
  rewrite !for_each_cons. simpl.
  destruct (rec k (d + c) T) as [[[]|e] Ta] eqn:Hcall; [|done].
  rewrite (rec_rec' _ _ _ _ Hcall). apply IH.
Qed.

Lemma visit_neighbors_deeper place d roads (T T' : table) :
  visit_neighbors rec place d roads T = (Ok tt, T') →
  visit_neighbors rec' place d roads T = (Ok tt, T').
Proof.
  rewrite !visit_neighbors_unfold.
  destruct (roads !! place); [apply for_each_deeper|done].
Qed.

Lemma dfs_body_deeper place d roads (T T' : table) :
  dfs_body rec place d roads T = (Ok tt, T') →
  dfs_body rec' place d roads T = (Ok tt, T').
Proof.
  rewrite !dfs_body_unfold. cbv zeta.
  destruct (_ !! place) as [known|]; [|done].
  destruct (cost_eqb known d).
  - destruct (visit_neighbors rec place d roads _)
      as [[[]|e] T2] eqn:Hvisit; [|done].
    rewrite (visit_neighbors_deeper _ _ _ _ _ Hvisit).
    destruct (T2 !! place) as [known'|]; [|done].
    destruct (cost_ltb d known'); [apply visit_neighbors_deeper|done].
  - destruct (_ !! place) as [known'|]; [|done].
    destruct (cost_ltb d known'); [apply visit_neighbors_deeper|done].
Qed.
End deeper.

Lemma dfs_deeper roads fuel : ∀ fuel' place d T T',
  (fuel ≤ fuel')%nat →
  dfs fuel place d roads T = (Ok tt, T') →
  dfs fuel' place d roads T = (Ok tt, T').
Proof.
  induction fuel as [|fuel IH]; intros fuel' place d T T' Hle; [done|].
  destruct fuel' as [|fuel']; [lia|]. simpl.
  apply dfs_body_deeper. intros p d' T0 T0'. apply IH. lia.
Qed.

(** ** The driver *)

Section driver_properties.
Variables (float : string → option Qc) (str : Qc → string).

Lemma main_start_missing fuel start_place destination map_file roads :
  read_distances float map_file = Ok roads →
  roads !! start_place = None →
  main float str fuel start_place destination map_file =
  ([print_args ["Start place "; start_place; " is not on the map"]],
   SystemExit 1).
Proof.
  intros Hread Hstart. unfold main. rewrite Hread, Hstart.
  by rewrite bool_decide_false by by intros [? [=]].
Qed.

Lemma main_destination_missing fuel start_place destination map_file
    roads :
  read_distances float map_file = Ok roads →
  is_Some (roads !! start_place) →
  roads !! destination = None →
  main float str fuel start_place destination map_file =
  ([print_args ["Destination "; destination; " is not on the map"]],
   SystemExit 1).
Proof.
  intros Hread Hstart Hdest. unfold main. rewrite Hread, Hdest.
  rewrite (bool_decide_true _ Hstart).
  by rewrite bool_decide_false by by intros [? [=]].
Qed.

Lemma main_search fuel start_place destination map_file roads
    (distances : table) :
  read_distances float map_file = Ok roads →
  is_Some (roads !! start_place) →
  is_Some (roads !! destination) →
  dfs fuel start_place 0 roads ∅ = (Ok tt, distances) →
  main float str fuel start_place destination map_file =
  match distances !! destination with
  | Some d =>
      (["Distance from " +:+ start_place +:+ " to " +:+
        destination +:+ " is " +:+ str d], Finished)
  | None =>
      (["You can't get from " +:+ start_place +:+ " to " +:+
        destination], Finished)
  end.
Proof.
  intros Hread Hstart Hdest Hrun. unfold main. rewrite Hread, Hrun.
  by rewrite (bool_decide_true _ Hstart), (bool_decide_true _ Hdest).
Qed.

(** C8.  When the network has loaded and the start label is not a key,
    the driver prints the line naming the start label and exits with
    status 1, whatever the destination is; when the start label is a key
    and the destination is not, it prints the line naming the destination
    and exits with status 1.  Neither outcome depends on the depth the
    stack allows, not even a depth of 0 at which the search would raise:
    the search is not run. *)
Theorem main_label_not_on_map fuel start_place destination map_file
    roads :
  read_distances float map_file = Ok roads →
  (roads !! start_place = None →
     main float str fuel start_place destination map_file =
     ([print_args ["Start place "; start_place; " is not on the map"]],
      SystemExit 1) ∧
     main float str 0 start_place destination map_file =
     main float str fuel start_place destination map_file) ∧
  (is_Some (roads !! start_place) → roads !! destination = None →
     main float str fuel start_place destination map_file =
     ([print_args ["Destination "; destination; " is not on the map"]],
      SystemExit 1) ∧
     main float str 0 start_place destination map_file =
     main float str fuel start_place destination map_file).
Proof.
  intros Hread. split.
  - intros Hstart. by rewrite !(main_start_missing _ _ _ _ _ Hread Hstart).
  - intros Hstart Hdest.
    by rewrite !(main_destination_missing _ _ _ _ _ Hread Hstart Hdest).
Qed.

(** C9, as amended.  When the destination is a key of the loaded network
    but no path leads to it from the start, the search leaves it out of the
    table, however the search ends; and when the search returns, the driver
    prints the line saying that one cannot get there and ends normally. *)
Theorem main_unreachable_when_search_returns fuel start_place destination
    map_file roads :
  read_distances float map_file = Ok roads →
  is_Some (roads !! start_place) →
  is_Some (roads !! destination) →
  (∀ w, ¬ path roads start_place destination w) →
  (dfs fuel start_place 0 roads ∅).2 !! destination = None ∧
  (∀ distances : table,
     dfs fuel start_place 0 roads ∅ = (Ok tt, distances) →
     main float str fuel start_place destination map_file =
     (["You can't get from " +:+ start_place +:+ " to " +:+ destination],
      Finished)).
Proof.
  intros Hread Hstart Hdest Hnopath.
  assert ((dfs fuel start_place 0 roads ∅).2 !! destination = None)
    as Hnone.
  { destruct ((dfs fuel start_place 0 roads ∅).2 !! destination)
      as [v|] eqn:Hv; [|done].
    destruct (Hnopath v).
    by apply (dfs_sound roads start_place fuel start_place 0 ∅
                (path_here _ _) (sound_empty _ _) destination v). }
  split; [done|]. intros distances Hrun. rewrite Hrun in Hnone.
  simpl in Hnone.
  by rewrite (main_search _ _ _ _ _ _ Hread Hstart Hdest Hrun), Hnone.
Qed.
End driver_properties.

(** ** The two exploring branches of one call *)

Lemma first_visit_unfold place d (T : table) :
  first_visit place d T =
  (Ok tt, match T !! place with Some _ => T | None => <[place := d]> T end).
Proof.
  unfold first_visit, contains, when, setitem, mbind, M_bind, bind.
  by destruct (T !! place).
Qed.

Lemma same_distance_unfold rec place d roads (T : table) :
  same_distance rec place d roads T =
  match T !! place with
  | Some known =>
      if cost_eqb known d then visit_neighbors rec place d roads T
      else (Ok tt, T)
  | None => (Raise (KeyError place), T)
  end.
Proof.
  unfold same_distance, getitem, when, mbind, M_bind, bind.
  destruct (T !! place) as [known|]; [|done].
  by destruct (cost_eqb known d).
Qed.

Lemma visit_neighbors_lowers rec place d roads :
  (∀ p d' T, lowers T (rec p d' T).2) →
  ∀ T, lowers T (visit_neighbors rec place d roads T).2.
Proof.
  intros Hrec T. rewrite visit_neighbors_unfold.
  destruct (roads !! place) as [l|]; [|done].
  apply for_each_lowers. intros h T'. apply Hrec.
Qed.

(** [fires_same] and [fires_shorter] are the two tests as [dfs_body] takes
    them. *)
Lemma dfs_body_fires rec place d roads (T : table) :
  (∀ p d' T, lowers T (rec p d' T).2) →
  dfs_body rec place d roads T =
  let T1 := (first_visit place d T).2 in
  match (if fires_same place d T then visit_neighbors rec place d roads T1
         else (Ok tt, T1)) with
  | (Raise e, T2) => (Raise e, T2)
  | (Ok _, T2) =>
      if fires_shorter rec place d roads T
      then visit_neighbors rec place d roads (<[place := d]> T2)
      else (Ok tt, T2)
  end.
Proof.
  intros Hrec. rewrite dfs_body_unfold. unfold fires_same, fires_shorter.
  unfold mbind at 1, M_bind at 1, bind at 1.
  rewrite first_visit_unfold, same_distance_unfold. cbv zeta. simpl.
  set (T1 := match T !! place with Some _ => T | None => _ end).
  assert (is_Some (T1 !! place)) as [known Hknown].
  { subst T1. destruct (T !! place) eqn:HT; [by rewrite HT|].
    by rewrite lookup_insert_eq. }
  rewrite Hknown. destruct (cost_eqb known d).
  - pose proof (visit_neighbors_lowers rec place d roads Hrec T1) as Hlow.
    destruct (visit_neighbors rec place d roads T1) as [[[]|e] T2]; [|done].
    destruct (Hlow place known Hknown) as (known' & Hknown' & _).
    simpl in Hknown'. by rewrite Hknown'.
  - by rewrite Hknown.
Qed.

Lemma branches_exclusive rec place d roads (T : table) :
  (∀ p d' T, lowers T (rec p d' T).2) →
  fires_same place d T = true →
  fires_shorter rec place d roads T = false.
Proof.
  intros Hrec. unfold fires_same, fires_shorter.
  unfold mbind, M_bind, bind.
  rewrite first_visit_unfold, same_distance_unfold.
  set (T1 := match T !! place with Some _ => T | None => _ end).
  destruct (T1 !! place) as [known|] eqn:Hknown; [|done].
  intros Heq. rewrite Heq. apply cost_eqb_eq in Heq as ->.
  pose proof (visit_neighbors_lowers rec place d roads Hrec T1) as Hlow.
  destruct (visit_neighbors rec place d roads T1) as [[[]|e] T2]; [|done].
  destruct (Hlow place d Hknown) as (known' & Hknown' & Hle).
  simpl in Hknown'. rewrite Hknown'. by apply cost_ltb_ge.
Qed.

Lemma first_visit_fires_same place d (T : table) :
  T !! place = None → fires_same place d T = true.
Proof.
  intros HT. unfold fires_same. rewrite first_visit_unfold, HT.
  by rewrite lookup_insert_eq, cost_eqb_refl.
Qed.

(** C4, as amended.  In no call of [dfs] do both exploring branches fire:
    when the equal-distance branch has fired, the entry of the place is
    still no higher than the distance of the call when the second test is
    taken, so the strictly-shorter branch does not fire.  When the place is
    visited for the first time, the equal-distance branch fires and the
    strictly-shorter branch does not: the call explores the neighbours
    once. *)
Theorem dfs_one_branch_per_call fuel place d roads (T : table) :
  (fires_same place d T = true →
     fires_shorter (λ p d', dfs fuel p d' roads) place d roads T = false) ∧
  (T !! place = None →
     fires_same place d T = true ∧
     fires_shorter (λ p d', dfs fuel p d' roads) place d roads T = false).
Proof.
  assert (∀ p d' T0, lowers T0 (dfs fuel p d' roads T0).2) as Hrec.
  { intros p d' T0. apply dfs_lowers. }
  split.
  - by apply branches_exclusive.
  - intros HT. pose proof (first_visit_fires_same place d T HT) as Hsame.
    split; [done|]. by apply branches_exclusive.
Qed.

(** C4 as stated fails: there is no call of [dfs], first visit or not, in
    which both branches fire. *)
Lemma no_call_fires_both_branches :
  ¬ ∃ fuel place d roads (T : table),
      fires_same place d T = true ∧
      fires_shorter (λ p d', dfs fuel p d' roads) place d roads T = true.
Proof.
  intros (fuel & place & d & roads & T & Hsame & Hshorter).
  rewrite branches_exclusive in Hshorter; [done| |done].
  intros p d' T0. apply dfs_lowers.
Qed.

(** ** A zero-cost road *)

Lemma zero_file_loaded :
  read_distances float_decimal zero_file = Ok (loaded zero_file).
Proof. vm_compute. reflexivity. Qed.

Lemma zero_file_hops place :
  place = "A" ∨ place = "B" →
  ∃ next c, loaded zero_file !! place = Some [(next, c)] ∧
            0 + c = 0 ∧ (next = "A" ∨ next = "B").
Proof.
  intros [-> | ->].
  - exists "B", (Qc_of_Z 0). split; [by vm_compute|].
    split; [by apply Qc_is_canon|by right].
  - exists "A", (Qc_of_Z 0). split; [by vm_compute|].
    split; [by apply Qc_is_canon|by left].
Qed.

(** Between the two ends of a zero-cost road every call finds the entry
    equal to its own distance and calls on: no depth is enough. *)
Lemma zero_file_overflows fuel : ∀ place (T : table),
  place = "A" ∨ place = "B" →
  (∀ k v, T !! k = Some v → v = 0) →
  (dfs fuel place 0 (loaded zero_file) T).1 = Raise RecursionError.
Proof.
  induction fuel as [|fuel IH]; intros place T Hplace Hzero; [done|].
  simpl. rewrite dfs_body_unfold. cbv zeta.
  set (T1 := match T !! place with Some _ => T | None => _ end).
  assert (∀ k v, T1 !! k = Some v → v = 0) as Hzero1.
  { subst T1. destruct (T !! place); [done|]. intros k v.
    destruct (decide (place = k)) as [->|Hne].
    - rewrite lookup_insert_eq. by intros [= <-].
    - rewrite lookup_insert_ne by done. apply Hzero. }
  assert (T1 !! place = Some 0) as ->.
  { subst T1. destruct (T !! place) as [v|] eqn:HT.
    - by rewrite HT, (Hzero _ _ HT).
    - by rewrite lookup_insert_eq. }
  rewrite cost_eqb_refl, visit_neighbors_unfold.
  destruct (zero_file_hops place Hplace) as (next & c & -> & Hc & Hnext).
  rewrite for_each_cons. simpl. rewrite Hc.
  specialize (IH next T1 Hnext Hzero1).
  by destruct (dfs fuel next 0 (loaded zero_file) T1) as [[[]|e] T2];
    simpl in IH; simplify_eq.
Qed.

Lemma zero_file_nonneg : nonneg_costs (loaded zero_file).
Proof. apply (bool_decide_unpack _). by vm_compute. Qed.


(** ** The triangle A, B, C *)

Lemma triangle_loaded :
  read_distances float_decimal triangle_file = Ok (loaded triangle_file).
Proof. vm_compute. reflexivity. Qed.

Lemma triangle_eol_loaded :
  read_distances float_decimal triangle_file_eol = Ok (loaded triangle_file).
Proof. vm_compute. reflexivity. Qed.

Lemma triangle_search :
  ∃ T : table, dfs 4 "A" 0 (loaded triangle_file) ∅ = (Ok tt, T) ∧
               T !! "C" = Some (Qc_of_Z 8).
Proof.
  exists (dfs 4 "A" 0 (loaded triangle_file) ∅).2. split.
  - vm_compute. reflexivity.
  - assert (this <$> (dfs 4 "A" 0 (loaded triangle_file) ∅).2 !! "C"
            = Some (8 # 1)%Q) as Hthis by (vm_compute; reflexivity).
    destruct (_ !! "C") as [v|]; [|done]. f_equal.
    apply Qc_is_canon. injection Hthis as ->. reflexivity.
Qed.

Lemma triangle_main str fuel map_file :
  read_distances float_decimal map_file = Ok (loaded triangle_file) →
  (4 ≤ fuel)%nat →
  main float_decimal str fuel "A" "C" map_file =
  (["Distance from A to C is " +:+ str (Qc_of_Z 8)], Finished).
Proof.
  intros Hread Hfuel. destruct triangle_search as (T & Hrun & HC).
  apply (dfs_deeper _ _ fuel) in Hrun; [|done].
  rewrite (main_search _ _ _ _ _ _ _ T Hread);
    [by rewrite HC|apply (bool_decide_unpack _); by vm_compute..|done].
Qed.

(** C7.  For the file of the three lines [A,B,5], [B,C,3], [A,C,10], read
    with or without line ends, the query from [A] to [C] prints the
    distance 8, the cost of the path through [B], and ends normally; 8 is
    not 10, the cost of the direct road. *)
Theorem main_triangle_distance str fuel :
  (4 ≤ fuel)%nat →
  main float_decimal str fuel "A" "C" triangle_file =
    (["Distance from A to C is " +:+ str (Qc_of_Z 8)], Finished) ∧
  main float_decimal str fuel "A" "C" triangle_file_eol =
    (["Distance from A to C is " +:+ str (Qc_of_Z 8)], Finished) ∧
  Qc_of_Z 8 = Qc_of_Z 5 + Qc_of_Z 3 ∧
  Qc_of_Z 8 < Qc_of_Z 10.
Proof.
  intros Hfuel. split; [|split; [|split]].
  - apply triangle_main; [apply triangle_loaded|done].
  - apply triangle_main; [apply triangle_eol_loaded|done].
  - by apply Qc_is_canon.
  - reflexivity.
Qed.

(** ** The theorems at concrete inputs *)

Lemma triangle_nonneg : nonneg_costs (loaded triangle_file).
Proof. apply (bool_decide_unpack _). by vm_compute. Qed.

Lemma triangle_positive : positive_costs (loaded triangle_file).
Proof. apply (bool_decide_unpack _). by vm_compute. Qed.

Lemma dfs_table_holds_shortest_triangle :
  shortest (loaded triangle_file) "A" "C" (Qc_of_Z 5 + Qc_of_Z 3).
Proof.
  apply (dfs_table_holds_shortest float_decimal triangle_file
           (loaded triangle_file) 4 "A"
           (dfs 4 "A" 0 (loaded triangle_file) ∅).2 "C").
  - vm_compute. reflexivity.
  - apply (bool_decide_unpack _). vm_compute. reflexivity.
  - vm_compute. reflexivity.
  - vm_compute. reflexivity.
Defined.

Lemma dfs_start_is_zero_triangle :
  (dfs 4 "A" 0 (loaded triangle_file) ∅).2 !! "A" = Some 0.
Proof.
  apply (dfs_start_is_zero float_decimal triangle_file
           (loaded triangle_file) 4 "A").
  - vm_compute. reflexivity.
  - apply (bool_decide_unpack _). vm_compute. reflexivity.
  - vm_compute. reflexivity.
Defined.


Lemma read_distances_two_entries_triangle :
  (∀ a b c, (a, b, c) ∈ records float_decimal triangle_file →
     ∃ la lb, loaded triangle_file !! a = Some la ∧ (b, c) ∈ la ∧
              loaded triangle_file !! b = Some lb ∧ (a, c) ∈ lb) ∧
  (∀ k, loaded triangle_file !! k =
        as_entry (entries_of k (records float_decimal triangle_file))).
Proof.
  apply (read_distances_two_entries_per_record float_decimal triangle_file
           (loaded triangle_file)).
  vm_compute. reflexivity.
Defined.

Lemma main_triangle_distance_limit_1000 :
  main float_decimal (λ _, "8.0") 1000 "A" "C" triangle_file =
    (["Distance from A to C is 8.0"], Finished) ∧
  main float_decimal (λ _, "8.0") 1000 "A" "C" triangle_file_eol =
    (["Distance from A to C is 8.0"], Finished) ∧
  Qc_of_Z 8 = Qc_of_Z 5 + Qc_of_Z 3 ∧
  Qc_of_Z 8 < Qc_of_Z 10.
Proof.
  apply (main_triangle_distance (λ _, "8.0") 1000). lia.
Defined.

Lemma main_label_not_on_map_triangle :
  (loaded triangle_file !! "X" = None →
     main float_decimal (λ _, "?") 1000 "X" "Y" triangle_file =
     ([print_args ["Start place "; "X"; " is not on the map"]],
      SystemExit 1) ∧
     main float_decimal (λ _, "?") 0 "X" "Y" triangle_file =
     main float_decimal (λ _, "?") 1000 "X" "Y" triangle_file) ∧
  (is_Some (loaded triangle_file !! "X") →
   loaded triangle_file !! "Y" = None →
     main float_decimal (λ _, "?") 1000 "X" "Y" triangle_file =
     ([print_args ["Destination "; "Y"; " is not on the map"]],
      SystemExit 1) ∧
     main float_decimal (λ _, "?") 0 "X" "Y" triangle_file =
     main float_decimal (λ _, "?") 1000 "X" "Y" triangle_file).
Proof.
  apply (main_label_not_on_map float_decimal (λ _, "?") 1000 "X" "Y"
           triangle_file (loaded triangle_file)).
  vm_compute. reflexivity.
Defined.

(** Two roads that do not meet: from [A] one stays in [A], [B]. *)
Lemma islands_no_path w : ¬ path (loaded islands_file) "A" "C" w.
Proof.
  assert (∀ k w', path (loaded islands_file) "A" k w' →
                  k = "A" ∨ k = "B") as Hstay.
  { intros k w'. induction 1 as [|k l k' c w' _ IH Hl Hin]; [by left|].
    destruct IH as [-> | ->].
    - assert (loaded islands_file !! "A" = Some [("B", Qc_of_Z 1)]) as Heq
        by (vm_compute; reflexivity).
      rewrite Heq in Hl. injection Hl as <-.
      apply list_elem_of_singleton in Hin as [= -> _]. by right.
    - assert (loaded islands_file !! "B" = Some [("A", Qc_of_Z 1)]) as Heq
        by (vm_compute; reflexivity).
      rewrite Heq in Hl. injection Hl as <-.
      apply list_elem_of_singleton in Hin as [= -> _]. by left. }
  intros Hpath. by destruct (Hstay _ _ Hpath).
Qed.

Lemma main_unreachable_islands :
  (dfs 3 "A" 0 (loaded islands_file) ∅).2 !! "C" = None ∧
  (∀ distances : table,
     dfs 3 "A" 0 (loaded islands_file) ∅ = (Ok tt, distances) →
     main float_decimal (λ _, "?") 3 "A" "C" islands_file =
     (["You can't get from " +:+ "A" +:+ " to " +:+ "C"], Finished)).
Proof.
  apply (main_unreachable_when_search_returns float_decimal (λ _, "?") 3
           "A" "C" islands_file (loaded islands_file)).
  - vm_compute. reflexivity.
  - apply (bool_decide_unpack _). vm_compute. reflexivity.
  - apply (bool_decide_unpack _). vm_compute. reflexivity.
  - exact islands_no_path.
Defined.

(** ** A zero-cost road and a place out of reach *)

Lemma zero_road_overflows roads fuel :
  (∀ place, place = "A" ∨ place = "B" →
     ∃ next c, roads !! place = Some [(next, c)] ∧
               0 + c = 0 ∧ (next = "A" ∨ next = "B")) →
  ∀ place (T : table),
    place = "A" ∨ place = "B" →
    (∀ k v, T !! k = Some v → v = 0) →
    (dfs fuel place 0 roads T).1 = Raise RecursionError.
Proof.
  intros Hhops.
  induction fuel as [|fuel IH]; intros place T Hplace Hzero; [done|].
  simpl. rewrite dfs_body_unfold. cbv zeta.
  set (T1 := match T !! place with Some _ => T | None => _ end).
  assert (∀ k v, T1 !! k = Some v → v = 0) as Hzero1.
  { subst T1. destruct (T !! place); [done|]. intros k v.
    destruct (decide (place = k)) as [->|Hne].
    - rewrite lookup_insert_eq. by intros [= <-].
    - rewrite lookup_insert_ne by done. apply Hzero. }
  assert (T1 !! place = Some 0) as ->.
  { subst T1. destruct (T !! place) as [v|] eqn:HT.
    - by rewrite HT, (Hzero _ _ HT).
    - by rewrite lookup_insert_eq. }
  rewrite cost_eqb_refl, visit_neighbors_unfold.
  destruct (Hhops place Hplace) as (next & c & -> & Hc & Hnext).
  rewrite for_each_cons. simpl. rewrite Hc.
  specialize (IH next T1 Hnext Hzero1).
  by destruct (dfs fuel next 0 roads T1) as [[[]|e] T2];
    simpl in IH; simplify_eq.
Qed.

Lemma zero_islands_hops place :
  place = "A" ∨ place = "B" →
  ∃ next c, loaded zero_islands_file !! place = Some [(next, c)] ∧
            0 + c = 0 ∧ (next = "A" ∨ next = "B").
Proof.
  intros [-> | ->].
  - exists "B", (Qc_of_Z 0). split; [by vm_compute|].
    split; [by apply Qc_is_canon|by right].
  - exists "A", (Qc_of_Z 0). split; [by vm_compute|].
    split; [by apply Qc_is_canon|by left].
Qed.

Lemma zero_islands_no_path w : ¬ path (loaded zero_islands_file) "A" "C" w.
Proof.
  assert (∀ k w', path (loaded zero_islands_file) "A" k w' →
                  k = "A" ∨ k = "B") as Hstay.
  { intros k w'. induction 1 as [|k l k' c w' _ IH Hl Hin]; [by left|].
    destruct (zero_islands_hops k IH) as (next & c' & Heq & _ & Hnext).
    rewrite Heq in Hl. injection Hl as <-.
    by apply list_elem_of_singleton in Hin as [= -> _]. }
  intros Hpath. by destruct (Hstay _ _ Hpath).
Qed.

(** C9 as stated fails on the file [A,B,0], [C,D,2] queried from [A] to
    [C]: both labels are keys and no path leads from [A] to [C], yet at
    every depth of the stack the search between [A] and [B] overflows, and
    the driver prints nothing and ends with the uncaught [RecursionError]
    instead of reporting that one cannot get there. *)
Lemma zero_road_hides_unreachable_report :
  ∃ roads, read_distances float_decimal zero_islands_file = Ok roads ∧
           is_Some (roads !! "A") ∧ is_Some (roads !! "C") ∧
           (∀ w, ¬ path roads "A" "C" w) ∧
           ∀ str fuel,
             main float_decimal str fuel "A" "C" zero_islands_file =
             ([], Uncaught RecursionError).
Proof.
  exists (loaded zero_islands_file).
  assert (read_distances float_decimal zero_islands_file =
          Ok (loaded zero_islands_file)) as Hread
    by (vm_compute; reflexivity).
  assert (is_Some (loaded zero_islands_file !! "A")) as HA
    by (apply (bool_decide_unpack _); vm_compute; reflexivity).
  assert (is_Some (loaded zero_islands_file !! "C")) as HC
    by (apply (bool_decide_unpack _); vm_compute; reflexivity).
  repeat split; try done.
  - apply zero_islands_no_path.
  - intros str fuel. unfold main. rewrite Hread.
    rewrite (bool_decide_true _ HA), (bool_decide_true _ HC). simpl.
    assert ((dfs fuel "A" 0 (loaded zero_islands_file) ∅).1 =
            Raise RecursionError) as Hover.
    { apply zero_road_overflows; [apply zero_islands_hops|by left|].
      intros k v. by rewrite lookup_empty. }
    destruct (dfs fuel "A" 0 (loaded zero_islands_file) ∅) as [[[]|e] T];
      simpl in Hover; [done|].
    by injection Hover as ->.
Qed.

Lemma read_distances_short_line_oops :
  (∃ e, read_distances float_decimal (["A,B,5"] ++ "A;B;5" :: ["B,C,3"])
        = Raise e) ∧
  (∀ connections, read_lines float_decimal ∅ ["A,B,5"] = Ok connections →
     read_distances float_decimal (["A,B,5"] ++ "A;B;5" :: ["B,C,3"])
     = Raise IndexError).
Proof.
  apply (read_distances_short_line float_decimal ["A,B,5"] "A;B;5"
           ["B,C,3"]).
  - vm_compute. discriminate.
  - vm_compute. reflexivity.
  - vm_compute. lia.
Defined.

(** * Further properties of the search *)

Lemma for_each_no_key_error (l : hops) (body : string * Qc → M unit) :
  (∀ h T, h ∈ l → no_key_error (body h T).1) →
  ∀ T, no_key_error (for_each l body T).1.
Proof.
  induction l as [|h l IH]; intros Hbody T; [by left|].
  rewrite for_each_cons.
  pose proof (Hbody h T (list_elem_of_here _ _)) as Hh.
  destruct (body h T) as [[[]|e] T'].
  - apply IH. intros h' T'' Hin. apply Hbody. by apply list_elem_of_further.
  - done.
Qed.

Lemma dfs_body_no_key_error rec place d roads (T : table) :
  closed roads → is_Some (roads !! place) →
  (∀ p d' T0, lowers T0 (rec p d' T0).2) →
  (∀ p d' T0, is_Some (roads !! p) → no_key_error (rec p d' T0).1) →
  no_key_error (dfs_body rec place d roads T).1.
Proof.
  intros Hclosed [l Hl] Hlow Hrec.
  assert (∀ T0, no_key_error (visit_neighbors rec place d roads T0).1)
    as Hvisit.
  { intros T0. rewrite visit_neighbors_unfold, Hl.
    apply for_each_no_key_error. intros [k c] T1 Hin. simpl.
    apply Hrec. by eapply closed_hop. }
  rewrite dfs_body_unfold. cbv zeta.
  set (T1 := match T !! place with Some _ => T | None => _ end).
  assert (is_Some (T1 !! place)) as [known Hknown].
  { subst T1. destruct (T !! place) eqn:HT; [by rewrite HT|].
    by rewrite lookup_insert_eq. }
  rewrite Hknown. destruct (cost_eqb known d).
  - pose proof (Hvisit T1) as H1.
    pose proof (visit_neighbors_lowers rec place d roads Hlow T1) as Hlow1.
    destruct (visit_neighbors rec place d roads T1) as [[[]|e] T2]; [|done].
    destruct (Hlow1 place known Hknown) as (known' & Hknown' & _).
    simpl in Hknown'. rewrite Hknown'.
    destruct (cost_ltb d known'); [apply Hvisit|by left].
  - rewrite Hknown. destruct (cost_ltb d known); [apply Hvisit|by left].
Qed.

Lemma dfs_no_key_error roads fuel : ∀ place d T,
  closed roads → is_Some (roads !! place) →
  no_key_error (dfs fuel place d roads T).1.
Proof.
  induction fuel as [|fuel IH]; intros place d T Hclosed Hplace; [by right|].
  simpl. apply dfs_body_no_key_error; try done.
  - intros p d' T0. apply dfs_lowers.
  - intros p d' T0 Hp. by apply IH.
Qed.

(** X1.  On a network the loader built, a search started at a place of the
    network, at any distance, into any table and with any stack depth,
    never fails on a missing key: it returns or it runs out of stack. *)
Theorem dfs_loaded_no_key_error float map_file roads fuel place d
    (T : table) :
  read_distances float map_file = Ok roads →
  is_Some (roads !! place) →
  no_key_error (dfs fuel place d roads T).1.
Proof.
  intros Hread Hplace. apply dfs_no_key_error; [|done].
  by eapply read_distances_closed.
Qed.

(** X2.  When the search from [start] at distance 0 into the empty table
    returns, the keys of the table are exactly the places some path from
    [start] leads to. *)
Theorem dfs_table_keys_reachable fuel roads start (T : table) k :
  dfs fuel start 0 roads ∅ = (Ok tt, T) →
  is_Some (T !! k) ↔ ∃ w, path roads start k w.
Proof.
  intros Hrun. split.
  - intros [v Hv]. exists v.
    by destruct (dfs_shortest_any_costs _ _ _ _ _ _ Hrun Hv).
  - intros [w Hpath]. apply dfs_settled in Hrun.
    destruct (settled_below_paths _ _ _ Hrun k w Hpath) as (v & Hv & _).
    by exists v.
Qed.

Lemma path_in_network roads s k w :
  closed roads → is_Some (roads !! s) → path roads s k w →
  is_Some (roads !! k).
Proof.
  intros Hclosed Hs. induction 1 as [|k l k' c w _ IH Hl Hin]; [done|].
  by eapply closed_hop.
Qed.

(** X3.  On a network the loader built, a search started at a place of the
    network into the empty table only ever enters places of the network in
    the table, also when it is cut short by the stack. *)
Theorem dfs_table_keys_in_network float map_file roads fuel start k :
  read_distances float map_file = Ok roads →
  is_Some (roads !! start) →
  is_Some ((dfs fuel start 0 roads ∅).2 !! k) →
  is_Some (roads !! k).
Proof.
  intros Hread Hstart [v Hv].
  pose proof (dfs_sound roads start fuel start 0 ∅ (path_here _ _)
    (sound_empty _ _) k v Hv) as Hpath.
  eapply path_in_network; [|done..]. by eapply read_distances_closed.
Qed.

(** X4.  A search that returned is not changed by a deeper stack: it
    returns the same table. *)
Theorem dfs_same_result_deeper_stack roads fuel fuel' place d (T T' : table) :
  (fuel ≤ fuel')%nat →
  dfs fuel place d roads T = (Ok tt, T') →
  dfs fuel' place d roads T = (Ok tt, T').
Proof. intros Hle Hrun. by eapply dfs_deeper. Qed.

(** ** A finished table is a fixed point *)

Lemma for_each_unchanged (l : hops) (body : string * Qc → M unit) (T : table) :
  (∀ h, h ∈ l → (body h T).2 = T) → (for_each l body T).2 = T.
Proof.
  induction l as [|h l IH]; intros Hbody; [done|].
  rewrite for_each_cons.
  pose proof (Hbody h (list_elem_of_here _ _)) as Hh.
  destruct (body h T) as [[[]|e] T']; simpl in Hh; subst T'; [|done].
  apply IH. intros h' Hin. apply Hbody. by apply list_elem_of_further.
Qed.

Lemma dfs_relaxed_unchanged roads (T : table) fuel : ∀ place d v,
  (∀ k, relaxed roads T k) →
  T !! place = Some v → v ≤ d →
  (dfs fuel place d roads T).2 = T.
Proof.
  induction fuel as [|fuel IH]; intros place d v Hrel Hv Hle; [done|].
  simpl. rewrite dfs_body_unfold. cbv zeta. rewrite !Hv.
  assert (v = d → (visit_neighbors (λ p d', dfs fuel p d' roads)
                     place d roads T).2 = T) as Hvisit.
  { intros ->. rewrite visit_neighbors_unfold.
    destruct (roads !! place) as [l|] eqn:Hl; [|done].
    apply for_each_unchanged. intros [k c] Hin. simpl.
    destruct (Hrel place d l k c Hv Hl Hin) as (v' & Hv' & Hle').
    by eapply IH. }
  destruct (cost_eqb v d) eqn:Heq.
  - apply cost_eqb_eq in Heq. specialize (Hvisit Heq). subst v.
    destruct (visit_neighbors _ place d roads T) as [[[]|e] T2];
      simpl in Hvisit; subst T2; [|done].
    rewrite Hv, cost_ltb_ge by apply Qcle_refl. done.
  - by rewrite Hv, cost_ltb_ge.
Qed.

(** X5.  The table of a search that returned is a fixed point: searching
    again from the same start at distance 0 into that table, with any stack
    depth, leaves every entry as it is. *)
Theorem dfs_finished_table_fixed fuel fuel' roads start (T : table) :
  dfs fuel start 0 roads ∅ = (Ok tt, T) →
  (dfs fuel' start 0 roads T).2 = T.
Proof.
  intros Hrun. destruct (dfs_settled _ _ _ _ _ _ Hrun) as [(v & Hv & Hle) Hrel].
  eapply dfs_relaxed_unchanged; [|done..].
  intros k v' l k' c Hk. eapply Hrel; [|done].
  rewrite lookup_empty. congruence.
Qed.

(** * Further properties of the loader *)

Lemma loaded_hop_record float map_file roads a la b c :
  read_distances float map_file = Ok roads →
  roads !! a = Some la →
  (b, c) ∈ la ↔
  ((a, b, c) ∈ records float map_file ∨ (b, a, c) ∈ records float map_file).
Proof.
  intros Hbuilt%read_distances_built Ha.
  rewrite Hbuilt in Ha. apply as_entry_Some in Ha as ->.
  rewrite elem_of_entries_of. split.
  - intros ([[a' b'] c'] & Hrec & Hin).
    apply elem_of_entries_of_record in Hin
      as [[-> [= -> ->]]|[-> [= -> ->]]]; by auto.
  - intros [Hrec|Hrec]; eexists; (split; [exact Hrec|]);
      apply elem_of_entries_of_record; by auto.
Qed.

Lemma loaded_hop_back float map_file roads a la b c :
  read_distances float map_file = Ok roads →
  roads !! a = Some la → (b, c) ∈ la →
  ∃ lb, roads !! b = Some lb ∧ (a, c) ∈ lb.
Proof.
  intros Hread Ha Hin.
  apply (loaded_hop_record _ _ _ _ _ _ _ Hread Ha) in Hin.
  destruct Hin as [Hrec|Hrec];
    destruct (record_entries _ _ _ _ _ _ Hread Hrec)
      as (l1 & l2 & H1 & Hin1 & H2 & Hin2); eauto.
Qed.

(** X6.  The network the loader returns is symmetric: whenever [(b, c)] is
    in the neighbour list of [a], [(a, c)] is in the neighbour list of
    [b]. *)
Theorem read_distances_symmetric float map_file roads a la b c :
  read_distances float map_file = Ok roads →
  roads !! a = Some la → (b, c) ∈ la →
  ∃ lb, roads !! b = Some lb ∧ (a, c) ∈ lb.
Proof. apply loaded_hop_back. Qed.

Lemma path_app roads s k m w w' :
  path roads s k w → path roads k m w' → path roads s m (w + w').
Proof.
  intros Hsk. induction 1 as [|m l m' c w' _ IH Hl Hin].
  - by rewrite Qcplus_0_r.
  - rewrite Qcplus_assoc. by eapply path_hop.
Qed.

(** X7.  On a network the loader built, paths can be walked backwards: a
    path from [s] to [k] of total cost [w] gives a path from [k] to [s] of
    the same total cost. *)
Theorem loaded_path_reverse float map_file roads s k w :
  read_distances float map_file = Ok roads →
  path roads s k w → path roads k s w.
Proof.
  intros Hread. induction 1 as [|k l k' c w _ IH Hl Hin].
  - apply path_here.
  - destruct (loaded_hop_back _ _ _ _ _ _ _ Hread Hl Hin)
      as (l' & Hl' & Hin').
    assert (path roads k' k (0 + c)) as Hback.
    { eapply path_hop; [apply path_here|done..]. }
    rewrite Qcplus_0_l in Hback.
    rewrite Qcplus_comm. by eapply path_app.
Qed.

(** X8.  The keys of the network the loader returns are exactly the places
    named as first or second field of some record, and no key has an empty
    neighbour list. *)
Theorem read_distances_keys float map_file roads k :
  read_distances float map_file = Ok roads →
  (is_Some (roads !! k) ↔
   ∃ a b c, (a, b, c) ∈ records float map_file ∧ (k = a ∨ k = b)) ∧
  roads !! k ≠ Some [].
Proof.
  intros Hread. pose proof (read_distances_built _ _ _ Hread) as Hbuilt.
  split; [split|].
  - intros [l Hl]. pose proof Hl as Hl'.
    rewrite Hbuilt in Hl'. apply as_entry_Some in Hl' as ->.
    destruct (entries_of k (records float map_file)) as [|[b c] l] eqn:He.
    { by rewrite Hbuilt, He in Hl. }
    assert ((b, c) ∈ entries_of k (records float map_file)) as Hin
      by (rewrite He; apply list_elem_of_here).
    apply elem_of_entries_of in Hin as ([[a' b'] c'] & Hrec & Hin).
    exists a', b', c'. split; [done|].
    apply elem_of_entries_of_record in Hin as [[-> _]|[-> _]]; by auto.
  - intros (a & b & c & Hrec & Hk).
    destruct (record_entries _ _ _ _ _ _ Hread Hrec)
      as (la & lb & Ha & _ & Hb & _).
    destruct Hk as [-> | ->]; eauto.
  - rewrite Hbuilt. by destruct (entries_of k (records float map_file)).
Qed.

Lemma read_line_skipped float connections line :
  is_skipped line = true → read_line float connections line = Ok connections.
Proof.
  intros Hskip. unfold is_skipped in Hskip. unfold read_line. cbv zeta.
  by rewrite Hskip.
Qed.

Lemma read_lines_without_skipped float map_file : ∀ connections,
  read_lines float connections
    (filter (λ line, is_skipped line = false) map_file) =
  read_lines float connections map_file.
Proof.
  induction map_file as [|line map_file IH]; intros connections; [done|].
  destruct (is_skipped line) eqn:Hskip.
  - rewrite filter_cons_False by (rewrite Hskip; done). simpl.
    rewrite (read_line_skipped _ _ _ Hskip). apply IH.
  - rewrite filter_cons_True by done. simpl.
    unfold mbind, result_bind.
    destruct (read_line float connections line); [apply IH|done].
Qed.

(** X9.  Blank lines and comment lines have no effect: the loader gives
    the same result, network or exception, on a file and on the file
    without them. *)
Theorem read_distances_ignores_skipped float map_file :
  read_distances float (filter (λ line, is_skipped line = false) map_file) =
  read_distances float map_file.
Proof. apply read_lines_without_skipped. Qed.

Lemma records_app float pre post :
  records float (pre ++ post) = records float pre ++ records float post.
Proof. unfold records. apply omap_app. Qed.

(** X10.  Loading goes line by line: when a file loads, each of its
    beginnings loads too, and the neighbour list of each place after the
    beginning is a prefix of its list after the whole file. *)
Theorem read_distances_prefix float pre post roads :
  read_distances float (pre ++ post) = Ok roads →
  ∃ roads_pre, read_distances float pre = Ok roads_pre ∧
    ∀ k l, roads_pre !! k = Some l → ∃ l', roads !! k = Some (l ++ l').
Proof.
  intros Hread. pose proof Hread as Happ.
  unfold read_distances in Happ. rewrite read_lines_app in Happ.
  destruct (read_lines float ∅ pre) as [roads_pre|e] eqn:Hpre; [|done].
  exists roads_pre. split; [done|]. intros k l Hl.
  rewrite (read_distances_built _ _ _ Hpre) in Hl.
  rewrite (read_distances_built _ _ _ Hread), records_app.
  unfold entries_of in *. rewrite flat_map_app.
  apply as_entry_Some in Hl as Heq. subst l.
  exists (flat_map (entries_of_record k) (records float post)).
  destruct (flat_map (entries_of_record k) (records float pre)); done.
Qed.

(** X11.  The first line that fails decides: when a beginning of the file
    makes the loader raise, the whole file makes it raise the same
    exception, whatever follows. *)
Theorem read_distances_first_error float pre post e :
  read_distances float pre = Raise e →
  read_distances float (pre ++ post) = Raise e.
Proof.
  unfold read_distances. intros Hpre. by rewrite read_lines_app, Hpre.
Qed.

(** X12.  A record whose third field is not a number: when the lines
    before it load, the loader raises [ValueError] with the text of that
    field, whatever further fields and lines follow. *)
Theorem read_distances_bad_cost float pre line post connections a b text
    rest :
  read_distances float pre = Ok connections →
  is_skipped line = false →
  split "," (strip line) = a :: b :: text :: rest →
  float text = None →
  read_distances float (pre ++ line :: post) = Raise (ValueError text).
Proof.
  intros Hpre Hskip Hsplit Hfloat. unfold read_distances in *.
  rewrite read_lines_app, Hpre. simpl. rewrite read_line_classify.
  unfold classify. cbv zeta. unfold is_skipped in Hskip.
  by rewrite Hskip, Hsplit, Hfloat.
Qed.

(** X13.  Fields after the third are ignored: a record line with further
    comma-separated fields adds the same two entries as the line made of
    its first three fields. *)
Theorem read_line_extra_fields float connections line line' a b text rest :
  is_skipped line = false → is_skipped line' = false →
  split "," (strip line) = a :: b :: text :: rest →
  split "," (strip line') = [a; b; text] →
  read_line float connections line = read_line float connections line'.
Proof.
  intros Hskip Hskip' Hsplit Hsplit'. rewrite !read_line_classify.
  unfold classify. cbv zeta. unfold is_skipped in *.
  by rewrite Hskip, Hskip', Hsplit, Hsplit'.
Qed.

(** * Further properties of the driver *)


Lemma read_lines_all_skipped float map_file : ∀ connections,
  Forall (λ line, is_skipped line = true) map_file →
  read_lines float connections map_file = Ok connections.
Proof.
  induction map_file as [|line map_file IH]; intros connections Hall; [done|].
  apply Forall_cons in Hall as [Hline Hall]. simpl.
  rewrite (read_line_skipped _ _ _ Hline). by apply IH.
Qed.

(** X15.  A map file without a record (empty, or only blank lines and
    comments) loads as the empty network, and the driver then reports the
    start place as not on the map and exits with status 1, whatever the two
    labels are. *)
Theorem main_no_records float str fuel start_place destination map_file :
  Forall (λ line, is_skipped line = true) map_file →
  read_distances float map_file = Ok ∅ ∧
  main float str fuel start_place destination map_file =
  ([print_args ["Start place "; start_place; " is not on the map"]],
   SystemExit 1).
Proof.
  intros Hall.
  assert (read_distances float map_file = Ok ∅) as Hread
    by by apply read_lines_all_skipped.
  split; [done|]. by apply (main_start_missing _ _ _ _ _ _ ∅).
Qed.

(** * string_reverse.py *)

Lemma append_cons c (a b : string) : String c a +:+ b = String c (a +:+ b).
Proof. reflexivity. Qed.

Lemma chars_cons c (s : string) :
  list_ascii_of_string (String c s) = c :: list_ascii_of_string s.
Proof. reflexivity. Qed.

Lemma chars_app (a b : string) :
  list_ascii_of_string (a +:+ b) =
  list_ascii_of_string a ++ list_ascii_of_string b.
Proof.
  induction a as [|c a IH]; [done|]. rewrite append_cons. simpl.
  by rewrite IH.
Qed.

Lemma chars_length (s : string) :
  String.length s = length (list_ascii_of_string s).
Proof. induction s as [|c s IH]; [done|]. simpl. by rewrite IH. Qed.

Lemma chars_inj (s t : string) :
  list_ascii_of_string s = list_ascii_of_string t → s = t.
Proof.
  intros Heq. rewrite <- (string_of_list_ascii_of_string s),
    <- (string_of_list_ascii_of_string t). by rewrite Heq.
Qed.

Lemma reversed_chars (s : string) :
  list_ascii_of_string (reversed s) = rev (list_ascii_of_string s).
Proof. unfold reversed. apply list_ascii_of_string_of_list_ascii. Qed.

Lemma reversed_length (s : string) :
  String.length (reversed s) = String.length s.
Proof. by rewrite !chars_length, reversed_chars, length_rev. Qed.

Lemma reversed_involutive (s : string) : reversed (reversed s) = s.
Proof.
  apply chars_inj. by rewrite !reversed_chars, rev_involutive.
Qed.

Lemma reversed_app (a b : string) :
  reversed (a +:+ b) = reversed b +:+ reversed a.
Proof.
  apply chars_inj.
  by rewrite chars_app, !reversed_chars, chars_app, rev_app_distr.
Qed.

Lemma last_item_but_last (s : string) :
  s ≠ EmptyString →
  ∃ c, StringReverse.last_item s = Ok (String c EmptyString) ∧
       list_ascii_of_string s =
       list_ascii_of_string (StringReverse.but_last s) ++ [c].
Proof.
  induction s as [|c s IH]; [done|]. intros _.
  destruct s as [|c' s]; [by exists c|].
  destruct IH as (c0 & Hlast & Hchars); [done|].
  exists c0. split; [done|].
  change (StringReverse.but_last (String c (String c' s)))
    with (String c (StringReverse.but_last (String c' s))).
  rewrite (chars_cons c (String c' s)),
    (chars_cons c (StringReverse.but_last (String c' s))).
  by rewrite Hchars.
Qed.

Lemma string_reverse_returns fuel : ∀ s,
  (String.length s < fuel)%nat →
  StringReverse.string_reverse fuel s = Ok (reversed s).
Proof.
  induction fuel as [|fuel IH]; intros s Hlen; [lia|]. simpl.
  case_bool_decide as Hempty; [subst s; reflexivity|].
  destruct (last_item_but_last s Hempty) as (c & -> & Hchars).
  assert (String.length s = S (String.length (StringReverse.but_last s)))
    as Hlen'.
  { rewrite !chars_length, Hchars, length_app. simpl. lia. }
  unfold mbind, result_bind. rewrite IH by lia. f_equal. apply chars_inj.
  rewrite append_cons, chars_cons, !reversed_chars, Hchars, rev_unit.
  f_equal. change (EmptyString +:+ ?x) with x. apply reversed_chars.
Qed.

Lemma string_reverse_overflows fuel : ∀ s,
  (fuel ≤ String.length s)%nat →
  StringReverse.string_reverse fuel s = Raise RecursionError.
Proof.
  induction fuel as [|fuel IH]; intros s Hlen; [done|]. simpl.
  case_bool_decide as Hempty; [subst s; simpl in Hlen; lia|].
  destruct (last_item_but_last s Hempty) as (c & -> & Hchars).
  assert (String.length s = S (String.length (StringReverse.but_last s)))
    as Hlen'.
  { rewrite !chars_length, Hchars, length_app. simpl. lia. }
  unfold mbind, result_bind. by rewrite IH by lia.
Qed.

(** X16.  With a stack deeper than the string is long, [string_reverse]
    returns the characters of the string in the opposite order; the result
    is as long as the argument. *)
Theorem string_reverse_reverses fuel s :
  (String.length s < fuel)%nat →
  ∃ r, StringReverse.string_reverse fuel s = Ok r ∧
       list_ascii_of_string r = rev (list_ascii_of_string s) ∧
       String.length r = String.length s.
Proof.
  intros Hlen. exists (reversed s).
  split; [by apply string_reverse_returns|].
  split; [apply reversed_chars|apply reversed_length].
Qed.

Lemma string_reverse_deeper fuel fuel' s r :
  (fuel ≤ fuel')%nat →
  StringReverse.string_reverse fuel s = Ok r →
  StringReverse.string_reverse fuel' s = Ok r.
Proof.
  intros Hle Hrun.
  destruct (decide (fuel ≤ String.length s)%nat) as [Hover|Hgt].
  { by rewrite string_reverse_overflows in Hrun. }
  rewrite string_reverse_returns in Hrun by lia.
  by rewrite string_reverse_returns by lia.
Qed.

(** X17.  The only exception [string_reverse] raises is [RecursionError]:
    the last character is never asked of the empty string.  And a call
    that returns with some stack returns the same string with any deeper
    stack. *)
Theorem string_reverse_only_recursion_error fuel s :
  (∀ e, StringReverse.string_reverse fuel s = Raise e →
        e = RecursionError) ∧
  (∀ fuel' r, (fuel ≤ fuel')%nat →
        StringReverse.string_reverse fuel s = Ok r →
        StringReverse.string_reverse fuel' s = Ok r).
Proof.
  split.
  - intros e.
    destruct (decide (fuel ≤ String.length s)%nat) as [Hle|Hgt].
    + rewrite string_reverse_overflows by done. by intros [= <-].
    + by rewrite string_reverse_returns by lia.
  - intros fuel' r. apply string_reverse_deeper.
Qed.

Lemma string_reverse_twice fuel s r :
  StringReverse.string_reverse fuel s = Ok r →
  StringReverse.string_reverse fuel r = Ok s.
Proof.
  intros Hrun. destruct (decide (fuel ≤ String.length s)%nat) as [Hle|Hgt].
  { by rewrite string_reverse_overflows in Hrun. }
  rewrite string_reverse_returns in Hrun by lia. injection Hrun as <-.
  rewrite string_reverse_returns by (rewrite reversed_length; lia).
  by rewrite reversed_involutive.
Qed.

(** X18.  Reversing twice gives the string back: what [string_reverse]
    returns, it reverses, at the same stack depth, to its argument. *)
Theorem string_reverse_involutive fuel s r :
  StringReverse.string_reverse fuel s = Ok r →
  StringReverse.string_reverse fuel r = Ok s.
Proof. apply string_reverse_twice. Qed.

(** X19.  The reversal of a concatenation is the concatenation of the
    reversals, the other way round; the stack depths that were enough for
    the parts are together enough for the whole. *)
Theorem string_reverse_append fuel1 fuel2 a b ra rb :
  StringReverse.string_reverse fuel1 a = Ok ra →
  StringReverse.string_reverse fuel2 b = Ok rb →
  StringReverse.string_reverse (fuel1 + fuel2) (a +:+ b) = Ok (rb +:+ ra).
Proof.
  intros Ha Hb.
  destruct (decide (fuel1 ≤ String.length a)%nat) as [Hle|Hgt];
    [by rewrite string_reverse_overflows in Ha|].
  destruct (decide (fuel2 ≤ String.length b)%nat) as [Hle'|Hgt'];
    [by rewrite string_reverse_overflows in Hb|].
  rewrite string_reverse_returns in Ha, Hb by lia.
  injection Ha as <-. injection Hb as <-.
  rewrite string_reverse_returns; [by rewrite reversed_app|].
  rewrite chars_length, chars_app, length_app, <- !chars_length. lia.
Qed.

(** * show_roads *)

(** The number of hops listed under the places of [order]. *)
Lemma show_roads_lines str roads order :
  (∀ k, k ∈ order → is_Some (roads !! k)) →
  (show_roads str order roads).2 = Ok tt ∧
  length (show_roads str order roads).1 =
  (length order +
   sum_list (map (λ k, length (default [] (roads !! k))) order))%nat.
Proof.
  induction order as [|k order IH]; intros Hkeys; [done|].
  destruct (Hkeys k (list_elem_of_here _ _)) as [l Hl].
  destruct IH as [Hok Hlen].
  { intros k' Hin. apply Hkeys. by apply list_elem_of_further. }
  simpl. rewrite Hl.
  destruct (show_roads str order roads) as [printed r]. simpl in *.
  split; [done|].
  unfold show_hops. rewrite length_app, length_map, Hlen. lia.
Qed.

Lemma sum_list_map_add {A} (f g : A → nat) (l : list A) :
  sum_list (map (λ x, f x + g x)%nat l) =
  (sum_list (map f l) + sum_list (map g l))%nat.
Proof. induction l as [|x l IH]; [done|]. simpl. rewrite IH. lia. Qed.

Lemma entries_of_record_count order a b c :
  NoDup order → a ∈ order → b ∈ order →
  sum_list (map (λ k, length (entries_of_record k (a, b, c))) order) = 2%nat.
Proof.
  assert (∀ x, NoDup order → x ∈ order →
    sum_list (map (λ k, if bool_decide (x = k) then 1 else 0) order) = 1)%nat
    as Hone.
  { intros x. induction 1 as [|k order Hk Hnd IH]; [by intros ?%elem_of_nil|].
    intros [->|Hin]%elem_of_cons; simpl.
    - rewrite bool_decide_true by done.
      assert (sum_list (map (λ k0, if bool_decide (k = k0) then 1 else 0)
                order) = 0)%nat as ->; [|done].
      clear IH Hnd. induction order as [|k' order IH]; [done|]. simpl.
      rewrite bool_decide_false.
      + rewrite IH; [done|]. intros Hin. apply Hk. by apply list_elem_of_further.
      + intros ->. apply Hk. apply list_elem_of_here.
    - rewrite bool_decide_false by (intros ->; done). by rewrite IH. }
  intros Hnd Ha Hb. rewrite <- (Hone a Hnd Ha) at 1.
  specialize (Hone b Hnd Hb).
  assert (∀ l : list string,
    sum_list (map (λ k, length (entries_of_record k (a, b, c))) l) =
    (sum_list (map (λ k, if bool_decide (a = k) then 1 else 0) l) +
     sum_list (map (λ k, if bool_decide (b = k) then 1 else 0) l))%nat)
    as Hsplit.
  { unfold entries_of_record.
    induction l as [|k l IH]; [done|]. simpl. rewrite IH, length_app.
    do 2 case_bool_decide; simpl; lia. }
  rewrite Hsplit, Hone. lia.
Qed.

Lemma entries_of_count order recs :
  NoDup order →
  (∀ a b c, (a, b, c) ∈ recs → a ∈ order ∧ b ∈ order) →
  sum_list (map (λ k, length (entries_of k recs)) order) =
  (2 * length recs)%nat.
Proof.
  intros Hnd. induction recs as [|[[a b] c] recs IH]; intros Hin.
  - clear. induction order as [|k order IH]; [done|]. exact IH.
  - assert (∀ l : list string,
      sum_list (map (λ k, length (entries_of k ((a, b, c) :: recs))) l) =
      (sum_list (map (λ k, length (entries_of_record k (a, b, c))) l) +
       sum_list (map (λ k, length (entries_of k recs)) l))%nat) as Hsplit.
    { intros l. rewrite <- sum_list_map_add. f_equal. apply map_ext.
      intros k. unfold entries_of. simpl flat_map. by rewrite length_app. }
    rewrite Hsplit, IH.
    + destruct (Hin a b c (list_elem_of_here _ _)) as [Ha Hb].
      rewrite entries_of_record_count by done. simpl. lia.
    + intros a' b' c' Hrec. apply (Hin a' b' c').
      by apply list_elem_of_further.
Qed.

(** X21.  For a network the loader built and an order that yields each of
    its keys once, [show_roads] ends without raising and prints one line
    per place and two lines per record of the file. *)
Theorem show_roads_line_count float str map_file roads order :
  read_distances float map_file = Ok roads →
  NoDup order →
  (∀ k, k ∈ order ↔ is_Some (roads !! k)) →
  (show_roads str order roads).2 = Ok tt ∧
  length (show_roads str order roads).1 =
  (length order + 2 * length (records float map_file))%nat.
Proof.
  intros Hread Hnd Hkeys.
  destruct (show_roads_lines str roads order) as [Hok Hlen].
  { intros k. apply Hkeys. }
  split; [done|]. rewrite Hlen. f_equal.
  rewrite <- (entries_of_count order (records float map_file) Hnd).
  - f_equal. apply map_ext. intros k.
    by rewrite (read_distances_built _ _ _ Hread), as_entry_default.
  - intros a b c Hrec.
    destruct (record_entries _ _ _ _ _ _ Hread Hrec)
      as (la & lb & Ha & _ & Hb & _).
    split; apply Hkeys; eauto.
Qed.

(** * The further properties at concrete inputs *)

Lemma dfs_loaded_no_key_error_zero_file :
  no_key_error (dfs 5 "A" 0 (loaded zero_file) ∅).1.
Proof.
  apply (dfs_loaded_no_key_error float_decimal zero_file).
  - vm_compute. reflexivity.
  - apply (bool_decide_unpack _). vm_compute. reflexivity.
Defined.

Lemma dfs_table_keys_reachable_triangle :
  is_Some ((dfs 4 "A" 0 (loaded triangle_file) ∅).2 !! "C") ↔
  ∃ w, path (loaded triangle_file) "A" "C" w.
Proof.
  apply (dfs_table_keys_reachable 4).
  vm_compute. reflexivity.
Defined.

Lemma dfs_table_keys_in_network_cut_short :
  is_Some (loaded triangle_file !! "B").
Proof.
  apply (dfs_table_keys_in_network float_decimal triangle_file
           (loaded triangle_file) 2 "A" "B").
  - vm_compute. reflexivity.
  - apply (bool_decide_unpack _). vm_compute. reflexivity.
  - apply (bool_decide_unpack _). vm_compute. reflexivity.
Defined.

Lemma dfs_same_result_deeper_stack_triangle :
  dfs 1000 "A" 0 (loaded triangle_file) ∅ =
  (Ok tt, (dfs 4 "A" 0 (loaded triangle_file) ∅).2).
Proof.
  apply (dfs_same_result_deeper_stack (loaded triangle_file) 4 1000).
  - lia.
  - vm_compute. reflexivity.
Defined.

Lemma dfs_finished_table_fixed_triangle :
  (dfs 7 "A" 0 (loaded triangle_file)
     (dfs 4 "A" 0 (loaded triangle_file) ∅).2).2 =
  (dfs 4 "A" 0 (loaded triangle_file) ∅).2.
Proof.
  apply (dfs_finished_table_fixed 4 7).
  vm_compute. reflexivity.
Defined.

Lemma read_distances_symmetric_triangle :
  ∃ lb, loaded triangle_file !! "B" = Some lb ∧ ("A", Qc_of_Z 5) ∈ lb.
Proof.
  apply (read_distances_symmetric float_decimal triangle_file
           (loaded triangle_file) "A"
           [("B", Qc_of_Z 5); ("C", Qc_of_Z 10)]).
  - vm_compute. reflexivity.
  - vm_compute. reflexivity.
  - apply list_elem_of_here.
Defined.

Lemma loaded_path_reverse_triangle :
  path (loaded triangle_file) "B" "A" (0 + Qc_of_Z 5).
Proof.
  apply (loaded_path_reverse float_decimal triangle_file).
  - vm_compute. reflexivity.
  - apply (path_hop _ _ "A" [("B", Qc_of_Z 5); ("C", Qc_of_Z 10)]).
    + apply path_here.
    + vm_compute. reflexivity.
    + apply list_elem_of_here.
Defined.

Lemma read_distances_keys_triangle :
  (is_Some (loaded triangle_file !! "A") ↔
   ∃ a b c, (a, b, c) ∈ records float_decimal triangle_file ∧
            ("A" = a ∨ "A" = b)) ∧
  loaded triangle_file !! "A" ≠ Some [].
Proof.
  apply (read_distances_keys float_decimal triangle_file).
  vm_compute. reflexivity.
Defined.

Lemma read_distances_prefix_triangle :
  ∃ roads_pre, read_distances float_decimal ["A,B,5"] = Ok roads_pre ∧
    ∀ k l, roads_pre !! k = Some l →
           ∃ l', loaded triangle_file !! k = Some (l ++ l').
Proof.
  apply (read_distances_prefix float_decimal ["A,B,5"] ["B,C,3"; "A,C,10"]).
  vm_compute. reflexivity.
Defined.

Lemma read_distances_first_error_oops :
  read_distances float_decimal (["A,B,5"; "oops"] ++ ["B,C,x"]) =
  Raise IndexError.
Proof.
  apply (read_distances_first_error float_decimal).
  vm_compute. reflexivity.
Defined.

Lemma read_distances_bad_cost_x :
  read_distances float_decimal (["A,B,5"] ++ "B,C,x,y" :: ["oops"]) =
  Raise (ValueError "x").
Proof.
  apply (read_distances_bad_cost float_decimal ["A,B,5"] "B,C,x,y" ["oops"]
           (loaded ["A,B,5"]) "B" "C" "x" ["y"]).
  - vm_compute. reflexivity.
  - vm_compute. reflexivity.
  - vm_compute. reflexivity.
  - vm_compute. reflexivity.
Defined.

Lemma read_line_extra_fields_scenic :
  read_line float_decimal ∅ "A,B,5,scenic,route" =
  read_line float_decimal ∅ "A,B,5".
Proof.
  apply (read_line_extra_fields float_decimal ∅ _ _ "A" "B" "5"
           ["scenic"; "route"]).
  - vm_compute. reflexivity.
  - vm_compute. reflexivity.
  - vm_compute. reflexivity.
  - vm_compute. reflexivity.
Defined.


Lemma main_no_records_comments :
  read_distances float_decimal ["# no roads yet"; "   "; newline] = Ok ∅ ∧
  main float_decimal (λ _, "?") 10 "A" "B"
    ["# no roads yet"; "   "; newline] =
  ([print_args ["Start place "; "A"; " is not on the map"]], SystemExit 1).
Proof.
  apply (main_no_records float_decimal (λ _, "?") 10 "A" "B").
  apply (bool_decide_unpack _). vm_compute. reflexivity.
Defined.

Lemma string_reverse_reverses_a_string :
  ∃ r, StringReverse.string_reverse 1000 "a string" = Ok r ∧
       list_ascii_of_string r = rev (list_ascii_of_string "a string") ∧
       String.length r = String.length "a string".
Proof.
  apply (string_reverse_reverses 1000 "a string").
  vm_compute. lia.
Defined.

Lemma string_reverse_involutive_12345 :
  StringReverse.string_reverse 20 "54321" = Ok "12345".
Proof.
  apply (string_reverse_involutive 20 "12345" "54321").
  vm_compute. reflexivity.
Defined.

Lemma string_reverse_append_zyxwvut :
  StringReverse.string_reverse (6 + 6) ("zyx" +:+ "wvut") =
  Ok ("tuvw" +:+ "xyz").
Proof.
  apply (string_reverse_append 6 6 "zyx" "wvut" "xyz" "tuvw").
  - vm_compute. reflexivity.
  - vm_compute. reflexivity.
Defined.

Lemma triangle_key_order k :
  k ∈ ["A"; "B"; "C"] ↔ is_Some (loaded triangle_file !! k).
Proof.
  rewrite <- elem_of_dom.
  assert (dom (loaded triangle_file) = list_to_set ["A"; "B"; "C"]) as ->
    by (vm_compute; reflexivity).
  by rewrite elem_of_list_to_set.
Qed.

Lemma show_roads_line_count_triangle :
  (show_roads (λ _, "?") ["A"; "B"; "C"] (loaded triangle_file)).2 = Ok tt ∧
  length (show_roads (λ _, "?") ["A"; "B"; "C"] (loaded triangle_file)).1 =
  (length ["A"; "B"; "C"] + 2 * length (records float_decimal triangle_file))%nat.
Proof.
  apply (show_roads_line_count float_decimal (λ _, "?") triangle_file).
  - vm_compute. reflexivity.
  - apply (bool_decide_unpack _). vm_compute. reflexivity.
  - exact triangle_key_order.
Defined.
